(** * NameGenderMapper: a shallow embedding of [NameGenderMapper.py]

    The script builds a name -> gender table from a reference file,
    decorates the rows of an input file with (Gender, GenderConfidence,
    GenderSource) and writes an audit file of ambiguous first names.

    Modelling choices, all taken from the Python source:
    - a [str] is the list of its Unicode code points;
    - a [float] is an IEEE 754 binary64 number, given by [spec_float]
      with precision 53 and maximal exponent 1024; every operation is the
      correctly rounded one (round to nearest, ties to even), as in CPython;
    - a [dict], a [defaultdict] and a [Counter] are association lists in
      insertion order without repeated keys: iteration order and the ties of
      [Counter.most_common] depend on that order;
    - the rows read by [csv.reader] are lists of fields; files, delimiters
      and progress messages are left out. *)

From Stdlib Require Import ZArith NArith PArith List Bool Lia.
From Stdlib Require Import Ascii String DecimalString.
From Stdlib Require Import Floats.SpecFloat.
Import ListNotations.

Set Implicit Arguments.

(* ================================================================== *)
(** ** Strings *)

Module Str.

(** A Unicode code point. *)
Definition char := N.
Definition str := list char.

(** An ASCII literal as a [str]. *)
Definition lit (s : string) : str :=
    List.map N_of_ascii (list_ascii_of_string s).

Fixpoint eqb (a b : str) : bool :=
    match a, b with
    | [], [] => true
    | x :: a', y :: b' => N.eqb x y && eqb a' b'
    | _, _ => false
    end.

(** [str.isspace] for one code point; the same class is [\s] of [re] on
      [str] patterns and the separator set of [str.split()] and
      [str.strip()]. *)
Definition isspace (c : char) : bool :=
    ((9 <=? c) && (c <=? 13) || (28 <=? c) && (c <=? 32)
     || (c =? 133) || (c =? 160) || (c =? 5760)
     || (8192 <=? c) && (c <=? 8202)
     || (c =? 8232) || (c =? 8233) || (c =? 8239) || (c =? 8287)
     || (c =? 12288))%N.

Fixpoint lstrip (s : str) : str :=
    match s with
    | c :: s' => if isspace c then lstrip s' else s
    | [] => []
    end.

Definition rstrip (s : str) : str := rev (lstrip (rev s)).

(** [s.strip()] *)
Definition strip (s : str) : str := rstrip (lstrip s).

(** [s.split()]: the maximal runs of non-space characters, in order.
      [cur] is the run being read, reversed. *)
Fixpoint split_aux (cur : str) (s : str) : list str :=
    match s with
    | [] => match cur with [] => [] | _ => [rev cur] end
    | c :: s' =>
        if isspace c
        then match cur with
             | [] => split_aux [] s'
             | _ => rev cur :: split_aux [] s'
             end
        else split_aux (c :: cur) s'
    end.

Definition split (s : str) : list str := split_aux [] s.

(** [str.lower] per code point, for Basic Latin and Latin-1
      Supplement. Code points above U+00FF are left as they are: the
      program lower-cases either a string already filtered to Latin-1
      letters ([get_first_name]) or a string that is then only compared
      with an ASCII word or an ASCII first letter, and no code point above
      U+00FF lower-cases to an ASCII letter of those words. *)
Definition lower_char (c : char) : char :=
    (if (65 <=? c) && (c <=? 90) then c + 32
     else if (192 <=? c) && (c <=? 222) && negb (c =? 215) then c + 32
     else c)%N.

Definition lower (s : str) : str := List.map lower_char s.

(** [str.upper] per code point, for Basic Latin and Latin-1
      Supplement (sharp s becomes "SS", y with diaeresis U+0178, the micro
      sign U+039C); code points above U+00FF are left as they are. *)
Definition upper_char (c : char) : str :=
    (if (97 <=? c) && (c <=? 122) then [c - 32]
     else if (224 <=? c) && (c <=? 254) && negb (c =? 247) then [c - 32]
     else if c =? 223 then [83; 83]
     else if c =? 255 then [376]
     else if c =? 181 then [924]
     else [c])%N.

Definition upper (s : str) : str := List.flat_map upper_char s.

(** [s.startswith(p)] *)
Fixpoint startswith (p s : str) : bool :=
    match p, s with
    | [], _ => true
    | x :: p', y :: s' => N.eqb x y && startswith p' s'
    | _ :: _, [] => false
    end.

(** [x in l] for a list of strings. *)
Definition mem (x : str) (l : list str) : bool := existsb (eqb x) l.

(** [l.index(x)], when [x in l]. *)
Fixpoint index (x : str) (l : list str) : nat :=
    match l with
    | [] => 0
    | y :: l' => if eqb y x then 0 else S (index x l')
    end.

(** [str(n)] for a non-negative integer. *)
Definition of_N (n : N) : str := lit (NilZero.string_of_uint (N.to_uint n)).

End Str.

Import Str.

(* ================================================================== *)
(** ** Floats: IEEE 754 binary64 *)

Module Float.

Definition prec : Z := 53.
Definition emax : Z := 1024.

Definition float := spec_float.

(** A non-negative Python [int] seen as an exact dyadic number. *)
Definition of_int (n : N) : float :=
    match n with
    | N0 => S754_zero false
    | Npos p => S754_finite false p 0
    end.

(** [a / b] on two non-negative Python [int]s: the correctly rounded
      quotient of the two integers ([long_true_divide]). The division of
      [spec_float] rounds the exact quotient of the two mantissas once,
      whatever their sizes. *)
Definition truediv (a b : N) : float := SFdiv prec emax (of_int a) (of_int b).

Definition mul (x y : float) : float := SFmul prec emax x y.

(** [x < y], [x <= y] on floats; [x > y] is [ltb y x], [x >= y] is
      [leb y x]. All are false on a NaN. *)
Definition ltb (x y : float) : bool := SFltb x y.
Definition leb (x y : float) : bool := SFleb x y.

(** The float literals of the script, each the binary64 number nearest
      to the decimal (see [literals_nearest]). *)
Definition f0_0 : float := S754_zero false.
Definition f1_0 : float := S754_finite false 4503599627370496 (-52).
Definition f0_5 : float := S754_finite false 4503599627370496 (-53).
Definition f0_65 : float := S754_finite false 5854679515581645 (-53).
Definition f0_7 : float := S754_finite false 6305039478318694 (-53).
Definition f0_85 : float := S754_finite false 7656119366529843 (-53).

(** Other decimals that the statements below mention. *)
Definition f0_525 : float := S754_finite false 4728779608739021 (-53).
Definition f0_75 : float := S754_finite false 6755399441055744 (-53).
Definition f0_8 : float := S754_finite false 7205759403792794 (-53).
Definition f0_9 : float := S754_finite false 8106479329266893 (-53).

(** [m * 2^e] is a binary64 number nearest to [num / den]: it is in
      canonical form and within half a unit in the last place. *)
Definition nearest (x : float) (num den : Z) : bool :=
    match x with
    | S754_finite false m e =>
        (bounded prec emax m e
         && (e <? 0)
         && (2 * Z.abs (Zpos m * den - num * 2 ^ (- e)) <=? den))%Z
    | _ => false
    end.

(** ["{:.3f}".format(x)]: the exact value of [x] rounded to a multiple
      of 1/1000, ties to even, printed with three decimals. *)
Definition thousandths (m : positive) (e : Z) : N :=
    match e with
    | Zneg p =>
        let num := (Npos m * 1000)%N in
        let den := (2 ^ Npos p)%N in
        let q := (num / den)%N in
        let r := (num mod den)%N in
        match (2 * r ?= den)%N with
        | Lt => q
        | Gt => (q + 1)%N
        | Eq => if N.even q then q else (q + 1)%N
        end
    | Z0 => (Npos m * 1000)%N
    | Zpos p => (Npos m * 1000 * 2 ^ Npos p)%N
    end.

Definition pad3 (n : N) : str :=
    (if n <? 10 then lit "00" ++ Str.of_N n
     else if n <? 100 then lit "0" ++ Str.of_N n
     else Str.of_N n)%N.

Definition fixed3 (t : N) : str :=
    Str.of_N (t / 1000) ++ lit "." ++ pad3 (t mod 1000).

Definition sign_str (s : bool) : str := if s then lit "-" else [].

Definition format3 (x : float) : str :=
    match x with
    | S754_zero s => sign_str s ++ lit "0.000"
    | S754_infinity s => sign_str s ++ lit "inf"
    | S754_nan => lit "nan"
    | S754_finite s m e => sign_str s ++ fixed3 (thousandths m e)
    end.

(** A float in the closed interval from 0 to 1. *)
Definition in_unit (x : float) : Prop :=
    leb f0_0 x = true /\ leb x f1_0 = true.

End Float.

Import Float.

(* ================================================================== *)
(** ** Dictionaries in insertion order *)

(** Boolean equality on keys (the laws are [EqbLaws], further down). *)
Class Eqb (K : Type) := eqb_key : K -> K -> bool.

#[global] Instance str_Eqb : Eqb str := Str.eqb.

#[global] Instance pair_Eqb {A B : Type} `{Eqb A} `{Eqb B} : Eqb (A * B) :=
  fun x y => eqb_key (fst x) (fst y) && eqb_key (snd x) (snd y).

Module Dict.
Section Ops.
Context {K V : Type} `{Eqb K}.

Definition dict := list (K * V).

(** [d[k]] when [k in d] *)
Fixpoint get (k : K) (d : dict) : option V :=
  match d with
  | [] => None
  | (k', v) :: d' => if eqb_key k' k then Some v else get k d'
  end.

(** [k in d] *)
Definition mem (k : K) (d : dict) : bool :=
  match get k d with Some _ => true | None => false end.

(** [d[k] = v]: an existing key keeps its place, a new one goes last. *)
Fixpoint set (k : K) (v : V) (d : dict) : dict :=
  match d with
  | [] => [(k, v)]
  | (k', v') :: d' =>
      if eqb_key k' k then (k', v) :: d' else (k', v') :: set k v d'
  end.

Definition keys (d : dict) : list K := List.map fst d.
Definition values (d : dict) : list V := List.map snd d.

(** No key is repeated. *)
Definition wf (d : dict) : Prop := NoDup (keys d).
End Ops.
Arguments dict : clear implicits.
End Dict.

(* ================================================================== *)
(** ** Labels, [normalize_gender], [get_first_name], [gg_guess] *)

(** The three gender strings ['M'], ['F'], ['Unknown']. *)
Inductive gender := M | F | Unknown.

Definition gender_eqb (a b : gender) : bool :=
  match a, b with
  | M, M | F, F | Unknown, Unknown => true
  | _, _ => false
  end.

#[global] Instance gender_Eqb : Eqb gender := gender_eqb.

Definition gender_str (g : gender) : str :=
  match g with
  | M => lit "M"
  | F => lit "F"
  | Unknown => lit "Unknown"
  end.

Definition nonempty {A : Type} (l : list A) : bool :=
  match l with [] => false | _ => true end.

Definition normalize_gender (g : str) : gender :=
  if negb (nonempty g) then Unknown
  else
    let s := lower (strip g) in
    if Str.eqb s (lit "m") || startswith (lit "m") s then M
    else if Str.eqb s (lit "f") || startswith (lit "f") s then F
    else Unknown.

(** The characters kept by [_valid_chars_re]: the class
    [A-Za-z], U+00C0..U+00D6, U+00D8..U+00F6, U+00F8..U+00FF, the
    apostrophe, the hyphen and [\s]. *)
Definition valid_char (c : char) : bool :=
  ((65 <=? c) && (c <=? 90) || (97 <=? c) && (c <=? 122)
   || (192 <=? c) && (c <=? 214) || (216 <=? c) && (c <=? 246)
   || (248 <=? c) && (c <=? 255)
   || (c =? 39) || (c =? 45) || isspace c)%N.

Definition get_first_name (full_name : str) : str :=
  if negb (nonempty full_name) then []
  else
    let s := strip full_name in
    let s := filter valid_char s in
    let tokens := filter nonempty (split s) in
    match tokens with
    | [] => []
    | t0 :: rest =>
        if Nat.eqb (List.length t0) 1 then
          match rest with
          | t1 :: _ => if Nat.ltb 1 (List.length t1) then lower t1 else []
          | [] => []
          end
        else lower t0
    end.

(** The categories returned by [Detector.get_gender]. *)
Inductive gg_category :=
  male | female | mostly_male | mostly_female | andy | unknown.

(** The optional dependency: [None] when the import failed
    ([GG_AVAILABLE = False]), else the detector's [get_gender]. *)
Definition detector := option (str -> gg_category).

Definition GG_AVAILABLE (gg : detector) : bool :=
  match gg with Some _ => true | None => false end.

Definition gg_guess (gg : detector) (first : str) : gender * float :=
  match gg with
  | Some get_gender =>
      if negb (nonempty first) then (Unknown, f0_0)
      else
        match get_gender first with
        | male => (M, f1_0)
        | mostly_male => (M, f0_85)
        | female => (F, f1_0)
        | mostly_female => (F, f0_85)
        | andy => (Unknown, f0_5)
        | unknown => (Unknown, f0_0)
        end
  | None => (Unknown, f0_0)
  end.

(* ================================================================== *)
(** ** Counters *)

Definition counter := Dict.dict gender N.

(** [ctr[g] += 1] *)
Definition incr (g : gender) (ctr : counter) : counter :=
  Dict.set g (match Dict.get g ctr with Some n => n | None => 0 end + 1)%N ctr.

(** [sum(ctr.values())] *)
Definition total (ctr : counter) : N :=
  fold_right N.add 0%N (Dict.values ctr).

(** [max(items, key=count)]: the first item, in insertion order, whose
    count is maximal. [best] is the maximum so far. *)
Fixpoint first_max (best : gender * N) (items : list (gender * N)) : gender * N :=
  match items with
  | [] => best
  | x :: rest => if (snd best <? snd x)%N then first_max x rest else first_max best rest
  end.

(** [ctr.most_common(1)], which is [heapq.nlargest(1, ...)], that is
    [max] over the items. *)
Definition most_common_1 (ctr : counter) : list (gender * N) :=
  match ctr with
  | [] => []
  | x :: rest => [first_max x rest]
  end.

(** Insertion into a list sorted by decreasing count, before the first
    item whose count is not greater: equal counts keep their order. *)
Fixpoint insert_desc (x : gender * N) (l : list (gender * N)) : list (gender * N) :=
  match l with
  | [] => [x]
  | y :: l' => if (snd x <? snd y)%N then y :: insert_desc x l' else x :: l
  end.

(** [ctr.most_common()], which is
    [sorted(items, key=count, reverse=True)], a stable sort. *)
Definition most_common (ctr : counter) : list (gender * N) :=
  fold_right insert_desc [] ctr.

(* ================================================================== *)
(** ** ReferenceAggregator: the counts built from the reference rows *)

Definition row := list str.

(** [row[i] if len(row) > i else ''] *)
Definition field (i : nat) (r : row) : str := nth i r [].

Definition counts := Dict.dict str counter.

(** [counts[fname][g] += 1] on a [defaultdict(Counter)] *)
Definition bump (fname : str) (g : gender) (c : counts) : counts :=
  Dict.set fname
    (incr g (match Dict.get fname c with Some ctr => ctr | None => [] end)) c.

(** [counts_by_country[country][fname][g] += 1] *)
Definition bump_country (country fname : str) (g : gender)
    (cc : Dict.dict str counts) : Dict.dict str counts :=
  Dict.set country
    (bump fname g (match Dict.get country cc with Some c => c | None => [] end)) cc.

Record ref_state := {
  name_idx : nat;
  gender_idx : nat;
  country_idx : option nat;
  counts_global : counts;
  counts_by_country : Dict.dict str counts
}.

Definition ref_init : ref_state :=
  {| name_idx := 0; gender_idx := 1; country_idx := None;
     counts_global := []; counts_by_country := [] |}.

(** The treatment of the first row: a header that has a [name] column
    fixes the column indices; any other first row is data, counted
    globally only. *)
Definition read_first_row (first_row : row) (st : ref_state) : ref_state :=
  if negb (nonempty first_row) then st
  else
    let lower := List.map (fun c => Str.lower (strip c)) first_row in
    if Str.mem (lit "name") lower then
      {| name_idx := index (lit "name") lower;
         gender_idx :=
           if Str.mem (lit "gender") lower then index (lit "gender") lower
           else if Str.mem (lit "sex") lower then index (lit "sex") lower
           else gender_idx st;
         country_idx :=
           if Str.mem (lit "country") lower
           then Some (index (lit "country") lower)
           else country_idx st;
         counts_global := counts_global st;
         counts_by_country := counts_by_country st |}
    else
      let name := field (name_idx st) first_row in
      let gender := field (gender_idx st) first_row in
      let fname := get_first_name name in
      if nonempty fname then
        {| name_idx := name_idx st; gender_idx := gender_idx st;
           country_idx := country_idx st;
           counts_global := bump fname (normalize_gender gender) (counts_global st);
           counts_by_country := counts_by_country st |}
      else st.

(** One turn of the loop over the remaining reference rows. *)
Definition ref_step (st : ref_state) (r : row) : ref_state :=
  if negb (nonempty r) then st
  else
    let name := field (name_idx st) r in
    let gender := field (gender_idx st) r in
    let fname := get_first_name name in
    if negb (nonempty fname) then st
    else
      let gnorm := normalize_gender gender in
      {| name_idx := name_idx st; gender_idx := gender_idx st;
         country_idx := country_idx st;
         counts_global := bump fname gnorm (counts_global st);
         counts_by_country :=
           match country_idx st with
           | Some ci =>
               let country := upper (strip (field ci r)) in
               if nonempty country
               then bump_country country fname gnorm (counts_by_country st)
               else counts_by_country st
           | None => counts_by_country st
           end |}.

(** The whole pass over the reference file, given as the rows of its
    reader. *)
Definition aggregate (reference : list row) : ref_state :=
  match reference with
  | [] => ref_init
  | first_row :: rest => fold_left ref_step rest (read_first_row first_row ref_init)
  end.

(* ================================================================== *)
(** ** ConfidenceModel: [mapping] and [mapping_country] *)

Definition CONF_THRESHOLD : float := f0_65.
Definition MIN_COUNT_FOR_CONFIDENCE : N := 5.

(** (gender, confidence, total_count) *)
Definition entry := (gender * float * N)%type.

Definition entry_gender (e : entry) : gender := fst (fst e).
Definition entry_conf (e : entry) : float := snd (fst e).
Definition entry_total (e : entry) : N := snd e.

(** "treat very small counts as low confidence" *)
Definition penalize (total : N) (conf : float) : float :=
  if (total <? MIN_COUNT_FOR_CONFIDENCE)%N && ltb conf f1_0
  then mul conf f0_7
  else conf.

(** The body of the loop that fills [mapping]; [None] is the [continue]
    of an empty counter. *)
Definition global_entry (ctr : counter) : option entry :=
  let total := total ctr in
  if (total =? 0)%N then None
  else
    match most_common_1 ctr with
    | (top_gender, top_count) :: _ =>
        let conf := if (0 <? total)%N then truediv top_count total else f0_0 in
        Some (top_gender, penalize total conf, total)
    | [] => None
    end.

(** The body of the loop that fills [mapping_country]. *)
Definition country_entry (ctr : counter) : option entry :=
  let total := total ctr in
  if (total =? 0)%N then None
  else
    match most_common_1 ctr with
    | (top_gender, top_count) :: _ =>
        let conf := truediv top_count total in
        Some (top_gender, penalize total conf, total)
    | [] => None
    end.

Definition build_mapping (cg : counts) : Dict.dict str entry :=
  fold_left
    (fun mapping (item : str * counter) =>
       match global_entry (snd item) with
       | Some e => Dict.set (fst item) e mapping
       | None => mapping
       end)
    cg [].

Definition build_mapping_country (cc : Dict.dict str counts)
  : Dict.dict (str * str) entry :=
  fold_left
    (fun mc (citem : str * counts) =>
       fold_left
         (fun mc (item : str * counter) =>
            match country_entry (snd item) with
            | Some e => Dict.set (fst citem, fst item) e mc
            | None => mc
            end)
         (snd citem) mc)
    cc [].

(* ================================================================== *)
(** ** DecisionEngine: the loop over the input rows *)

(** What the decision loop reads: the two mappings and the optional
    classifier. *)
Record env := {
  mapping : Dict.dict str entry;
  mapping_country : Dict.dict (str * str) entry;
  gg : detector
}.

Inductive source := src_unknown | src_country_mapped | src_mapped | src_gender_guesser.

Definition source_str (s : source) : str :=
  match s with
  | src_unknown => lit "unknown"
  | src_country_mapped => lit "country-mapped"
  | src_mapped => lit "mapped"
  | src_gender_guesser => lit "gender-guesser"
  end.

(** The local variables of one turn of the loop. [cand_g] and
    [cand_conf] are unset ([None]) until assigned. *)
Record locals := {
  chosen_gender : gender;
  chosen_conf : float;
  chosen_source : source;
  cand_g : option gender;
  cand_conf : option float
}.

Definition locals_init : locals :=
  {| chosen_gender := Unknown; chosen_conf := f0_0; chosen_source := src_unknown;
     cand_g := None; cand_conf := None |}.

Definition choose (g : gender) (c : float) (s : source) (l : locals) : locals :=
  {| chosen_gender := g; chosen_conf := c; chosen_source := s;
     cand_g := cand_g l; cand_conf := cand_conf l |}.

Definition remember (g : gender) (c : float) (l : locals) : locals :=
  {| chosen_gender := chosen_gender l; chosen_conf := chosen_conf l;
     chosen_source := chosen_source l;
     cand_g := Some g; cand_conf := Some c |}.

Definition set_cand_conf (c : float) (l : locals) : locals :=
  {| chosen_gender := chosen_gender l; chosen_conf := chosen_conf l;
     chosen_source := chosen_source l;
     cand_g := cand_g l; cand_conf := Some c |}.

(** "prefer country-specific mapping if available": the first [if fname:]
    block. *)
Definition step_mapping (E : env) (country fname : str) (l : locals) : locals :=
  if nonempty fname then
    match Dict.get (country, fname) (mapping_country E) with
    | Some (g, conf, _) =>
        if leb CONF_THRESHOLD conf then choose g conf src_country_mapped l
        else remember g conf l
    | None =>
        match Dict.get fname (mapping E) with
        | Some (g, conf, _) =>
            if leb CONF_THRESHOLD conf then choose g conf src_mapped l
            else remember g conf l
        | None => l
        end
    end
  else l.

(** "if not decided by mapping, try gender-guesser if available": the
    block guarded by [chosen_gender == 'Unknown' and fname]. *)
Definition step_fallback (E : env) (fname : str) (l : locals) : locals :=
  if gender_eqb (chosen_gender l) Unknown && nonempty fname then
    let use_gg :=
      match Dict.get fname (mapping E) with
      | None => true
      | Some (_, conf, _) => ltb conf CONF_THRESHOLD
      end in
    if use_gg && GG_AVAILABLE (gg E) then
      let '(gg_g, gg_conf) := gg_guess (gg E) fname in
      let cand_conf' :=
        match Dict.get fname (mapping E) with
        | Some (_, conf, _) => conf
        | None => f0_0
        end in
      let l := set_cand_conf cand_conf' l in
      if leb f0_85 gg_conf || ltb cand_conf' gg_conf then
        choose gg_g gg_conf src_gender_guesser l
      else
        match Dict.get fname (mapping E) with
        | Some (g, _, _) =>
            if ltb gg_conf cand_conf' then choose g cand_conf' src_mapped l else l
        | None => l
        end
    else
      match Dict.get fname (mapping E) with
      | Some (g, conf, _) => choose g conf src_mapped l
      | None => l
      end
  else l.

(** "final fallback to mapping's top choice" *)
Definition step_final (E : env) (fname : str) (l : locals) : locals :=
  if gender_eqb (chosen_gender l) Unknown && nonempty fname then
    match Dict.get fname (mapping E) with
    | Some (g, conf, _) => choose g conf src_mapped l
    | None => l
    end
  else l.

(** The decision for a name token and a country key. *)
Definition decide (E : env) (country fname : str) : locals :=
  step_final E fname (step_fallback E fname (step_mapping E country fname locals_init)).

(** [row[1].strip().upper() if len(row) > 1 else ''] *)
Definition row_country (r : row) : str := upper (strip (field 1 r)).

(** The three fields appended to a row:
    [[chosen_gender, "{:.3f}".format(chosen_conf), source]]. *)
Definition decision_fields (l : locals) : row :=
  [gender_str (chosen_gender l); format3 (chosen_conf l);
   source_str (chosen_source l)].

(** One turn of the loop: [None] when the row is skipped, else the row
    written. *)
Definition process_row (E : env) (r : row) : option row :=
  match r with
  | [] => None
  | name :: _ =>
      if Str.eqb (lower (strip name)) (lit "name") then None
      else
        let country := row_country r in
        let fname := get_first_name name in
        let l := decide E country fname in
        Some (r ++ decision_fields l)
  end.

(** The rows that the loop does not skip: non-empty, and not a repeated
    header line. *)
Definition is_data_row (r : row) : bool :=
  match r with
  | [] => false
  | name :: _ => negb (Str.eqb (lower (strip name)) (lit "name"))
  end.

Definition new_columns : row :=
  [lit "Gender"; lit "GenderConfidence"; lit "GenderSource"].

Definition default_header : row :=
  [lit "Name"; lit "Country"; lit "Address"; lit "City"; lit "State";
   lit "Zip"; lit "Phone Number"] ++ new_columns.

Fixpoint process_rows (E : env) (rows : list row) : list row :=
  match rows with
  | [] => []
  | r :: rest =>
      match process_row E r with
      | Some out => out :: process_rows E rest
      | None => process_rows E rest
      end
  end.

(** The rows written to the output file for the rows of the input
    reader. *)
Definition decision_phase (E : env) (input : list row) : list row :=
  match input with
  | [] => [default_header]
  | header :: rest =>
      (if nonempty header then header ++ new_columns else default_header)
      :: process_rows E rest
  end.

(* ================================================================== *)
(** ** AuditReporter *)

Record audit_entry := {
  au_first_name : str;
  au_top_gender : gender;
  au_top_count : N;
  au_second_count : N;
  au_total_count : N;
  au_confidence : float
}.

(** The test "low total, low conf, or near tie". *)
Definition audit_flag (total top_count second_count : N) (conf : float)
    (labels : nat) : bool :=
  (total <? 50)%N || ltb conf f0_7
  || (Nat.ltb 1 labels && (Z.of_N top_count - Z.of_N second_count <? 3)%Z).

(** The body of the audit loop for one name; [None] when nothing is
    written. *)
Definition audit_one (fname : str) (ctr : counter) : option audit_entry :=
  let total := total ctr in
  if (total =? 0)%N then None
  else
    let most := most_common ctr in
    match most with
    | (top_gender, top_count) :: tl =>
        let second_count := match tl with (_, c) :: _ => c | [] => 0%N end in
        let conf := truediv top_count total in
        if audit_flag total top_count second_count conf (List.length most)
        then Some {| au_first_name := fname; au_top_gender := top_gender;
                     au_top_count := top_count; au_second_count := second_count;
                     au_total_count := total; au_confidence := conf |}
        else None
    | [] => None
    end.

Fixpoint audit (cg : counts) : list audit_entry :=
  match cg with
  | [] => []
  | (fname, ctr) :: rest =>
      match audit_one fname ctr with
      | Some a => a :: audit rest
      | None => audit rest
      end
  end.

(** The row written for an audit entry. *)
Definition audit_row (a : audit_entry) : row :=
  [au_first_name a; gender_str (au_top_gender a); Str.of_N (au_top_count a);
   Str.of_N (au_second_count a); Str.of_N (au_total_count a);
   format3 (au_confidence a)].

(* ================================================================== *)
(** ** [detect_delimiter] *)

(** [max(items, key=key)]: the first item whose key is maximal; [best] is
    the maximum so far. *)
Fixpoint max_by {A : Type} (key : A -> N) (best : A) (items : list A) : A :=
  match items with
  | [] => best
  | x :: rest =>
      if (key best <? key x)%N then max_by key x rest else max_by key best rest
  end.

(** [sample.count(c)] for a one-character [c]. *)
Fixpoint count_char (c : char) (sample : str) : N :=
  match sample with
  | [] => 0%N
  | x :: rest => ((if N.eqb x c then 1 else 0) + count_char c rest)%N
  end.

(** Comma, tab, semicolon, vertical bar. *)
Definition candidates : list char := [44; 9; 59; 124]%N.

Definition sample_size : nat := N.to_nat 8192.

(** The delimiter chosen for a file, given as its decoded text: the
    candidate that occurs most often in the first [sample_size]
    characters. *)
Definition detect_delimiter (content : str) : char :=
  let sample := firstn sample_size content in
  max_by (fun c => count_char c sample) 44%N [9; 59; 124]%N.

(* ================================================================== *)
(** ** The whole script *)

(** The environment of the decision loop after the reference pass. *)
Definition build_env (reference : list row) (gg : detector) : env :=
  let st := aggregate reference in
  {| mapping := build_mapping (counts_global st);
     mapping_country := build_mapping_country (counts_by_country st);
     gg := gg |}.

(** Output rows and audit entries for a reference file, an input file
    and the optional classifier. *)
Definition run (reference input : list row) (gg : detector)
  : list row * list audit_entry :=
  (decision_phase (build_env reference gg) input,
   audit (counts_global (aggregate reference))).

(* ================================================================== *)
(** ** Reference files used in the statements *)

(** Three rows without a header: one male and two female "Alex". *)
Definition alex_reference : list row :=
  [[lit "Alex"; lit "M"]; [lit "Alex"; lit "F"]; [lit "Alex"; lit "F"]].

(** The same name observed once per label, in the two possible orders. *)
Definition tie_reference_MF : list row :=
  [[lit "Alex"; lit "M"]; [lit "Alex"; lit "F"]].
Definition tie_reference_FM : list row :=
  [[lit "Alex"; lit "F"]; [lit "Alex"; lit "M"]].

Definition header_ngc : row := [lit "name"; lit "gender"; lit "country"].

Definition ref_row (name gender country : string) : row :=
  [lit name; lit gender; lit country].

(** "Alex" in two countries: a tie in the US, one female row in Germany. *)
Definition country_reference : list row :=
  [header_ngc; ref_row "Alex" "M" "us"; ref_row "Alex" "F" "US";
   ref_row "Alex" "F" "de"].

(** Seventy "Alex" rows: in the US seven of a first label and three of a
    second one, in Germany sixty of the second one. *)
Definition split_reference (us7 us3_de60 : string) : list row :=
  header_ngc :: repeat (ref_row "Alex" us7 "US") 7
    ++ repeat (ref_row "Alex" us3_de60 "US") 3
    ++ repeat (ref_row "Alex" us3_de60 "DE") 60.

(** Six male and four female "Alex" in the US, and [de] further rows in
    Germany. *)
Definition us_6_4_reference (de : list row) : list row :=
  header_ngc :: repeat (ref_row "Alex" "M" "US") 6
    ++ repeat (ref_row "Alex" "F" "US") 4 ++ de.

Definition always (c : gg_category) : detector := Some (fun _ => c).

(** The largest and the second largest of a list of counts (0 when
    missing). *)
Fixpoint top_two (l : list N) : N * N :=
  match l with
  | [] => (0%N, 0%N)
  | x :: l' =>
      let '(a, b) := top_two l' in
      if (x <? a)%N then (a, N.max b x) else (x, a)
  end.

(** The label of the spec's enumeration order (Male, Female, Unknown)
    that comes first among those of maximal count. *)
Definition count_of (g : gender) (ctr : counter) : N :=
  match Dict.get g ctr with Some n => n | None => 0%N end.

Definition max_count (ctr : counter) : N :=
  fold_right N.max 0%N (Dict.values ctr).

Definition enum_first_top (ctr : counter) : gender :=
  if (count_of M ctr =? max_count ctr)%N then M
  else if (count_of F ctr =? max_count ctr)%N then F
  else Unknown.

(* ================================================================== *)
(** * Properties *)

(* ------------------------------------------------------------------ *)
(** ** Float literals *)

Lemma literals_nearest :
  nearest f1_0 1 1 = true /\ nearest f0_5 5 10 = true /\
  nearest f0_65 65 100 = true /\ nearest f0_7 7 10 = true /\
  nearest f0_85 85 100 = true /\ nearest f0_525 525 1000 = true /\
  nearest f0_75 75 100 = true /\ nearest f0_8 8 10 = true /\
  nearest f0_9 9 10 = true.
Proof. repeat split; vm_compute; reflexivity. Qed.

(* ------------------------------------------------------------------ *)
(** ** Keys *)

Class EqbLaws {K : Type} (E : Eqb K) : Prop :=
  eqb_key_spec : forall x y : K, eqb_key x y = true <-> x = y.

Lemma str_eqb_spec (a b : str) : Str.eqb a b = true <-> a = b.
Proof.
  revert b; induction a as [|x a IH]; intros [|y b]; simpl;
    try (split; [discriminate | congruence]); try tauto.
  rewrite andb_true_iff, N.eqb_eq, IH. split.
  - intros [-> ->]; reflexivity.
  - intros E; injection E; auto.
Qed.

Lemma gender_eqb_spec (a b : gender) : gender_eqb a b = true <-> a = b.
Proof. destruct a, b; simpl; split; congruence. Qed.

#[global] Instance str_EqbLaws : EqbLaws str_Eqb := str_eqb_spec.
#[global] Instance gender_EqbLaws : EqbLaws gender_Eqb := gender_eqb_spec.

#[global] Instance pair_EqbLaws {A B : Type} {EA : Eqb A} {EB : Eqb B}
  {LA : EqbLaws EA} {LB : EqbLaws EB} : EqbLaws (pair_Eqb (A:=A) (B:=B)).
Proof.
  intros [a b] [a' b']. unfold eqb_key, pair_Eqb; simpl.
  rewrite andb_true_iff.
  rewrite (eqb_key_spec a a'), (eqb_key_spec b b').
  split; [intros [-> ->]; reflexivity | intros E; injection E; auto].
Qed.

Lemma eqb_key_refl {K : Type} {EK : Eqb K} {LK : EqbLaws EK} (x : K) :
  eqb_key x x = true.
Proof. apply eqb_key_spec; reflexivity. Qed.

Lemma eqb_key_neq {K : Type} {EK : Eqb K} {LK : EqbLaws EK} (x y : K) :
  x <> y -> eqb_key x y = false.
Proof.
  intros N. destruct (eqb_key x y) eqn:E; [|reflexivity].
  apply eqb_key_spec in E; contradiction.
Qed.

Lemma nonempty_true {A : Type} (l : list A) : nonempty l = true <-> l <> [].
Proof. destruct l; simpl; split; congruence. Qed.

(* ------------------------------------------------------------------ *)
(** ** Dictionaries *)

Section DictFacts.
Context {K V : Type} {EK : Eqb K} {LK : EqbLaws EK}.
Implicit Types (d : Dict.dict K V) (k : K) (v : V).

Lemma get_set_same k v d : Dict.get k (Dict.set k v d) = Some v.
Proof.
  induction d as [|[k' v'] d IH]; simpl.
  - now rewrite eqb_key_refl.
  - destruct (eqb_key k' k) eqn:E; simpl; rewrite E; auto.
Qed.

Lemma get_set_other k k' v d :
  k <> k' -> Dict.get k' (Dict.set k v d) = Dict.get k' d.
Proof.
  intros N. induction d as [|[k0 v0] d IH]; simpl.
  - now rewrite eqb_key_neq.
  - destruct (eqb_key k0 k) eqn:E; simpl.
    + apply eqb_key_spec in E; subst k0. now rewrite eqb_key_neq.
    + now rewrite IH.
Qed.

Lemma get_set k k' v d :
  Dict.get k' (Dict.set k v d) = if eqb_key k k' then Some v else Dict.get k' d.
Proof.
  destruct (eqb_key k k') eqn:E.
  - apply eqb_key_spec in E; subst; apply get_set_same.
  - apply get_set_other. intros ->. now rewrite eqb_key_refl in E.
Qed.

Lemma get_In k v d : Dict.get k d = Some v -> In (k, v) d.
Proof.
  induction d as [|[k' v'] d IH]; simpl; [discriminate|].
  destruct (eqb_key k' k) eqn:E.
  - apply eqb_key_spec in E; subst. intros [= ->]; auto.
  - auto.
Qed.

Lemma get_None_keys k d : Dict.get k d = None <-> ~ In k (Dict.keys d).
Proof.
  induction d as [|[k' v'] d IH]; simpl; [tauto|].
  destruct (eqb_key k' k) eqn:E.
  - apply eqb_key_spec in E; subst. split; [discriminate | tauto].
  - rewrite IH. split; [|tauto]. intros A [B|B]; [|tauto].
    subst. now rewrite eqb_key_refl in E.
Qed.

Lemma In_get k v d : Dict.wf d -> In (k, v) d -> Dict.get k d = Some v.
Proof.
  unfold Dict.wf. induction d as [|[k' v'] d IH]; simpl; [tauto|].
  intros W. inversion W as [|? ? NI W']; subst.
  intros [E|I].
  - injection E as -> ->. now rewrite eqb_key_refl.
  - destruct (eqb_key k' k) eqn:E; [|auto].
    apply eqb_key_spec in E; subst. exfalso; apply NI.
    change k with (fst (k, v)). now apply in_map.
Qed.

Lemma keys_set k v d :
  Dict.keys (Dict.set k v d) =
  if Dict.mem k d then Dict.keys d else Dict.keys d ++ [k].
Proof.
  unfold Dict.mem. induction d as [|[k' v'] d IH]; simpl; [reflexivity|].
  destruct (eqb_key k' k) eqn:E; simpl; [reflexivity|].
  rewrite IH. destruct (Dict.get k d); reflexivity.
Qed.

Lemma wf_set k v d : Dict.wf d -> Dict.wf (Dict.set k v d).
Proof.
  unfold Dict.wf. intros W. rewrite keys_set. unfold Dict.mem.
  destruct (Dict.get k d) eqn:G; [assumption|].
  apply get_None_keys in G.
  apply NoDup_rev in W. rewrite <- (rev_involutive (_ ++ _)).
  apply NoDup_rev. rewrite rev_app_distr; simpl.
  constructor; [rewrite <- in_rev; assumption | assumption].
Qed.

Lemma wf_nil : Dict.wf (@nil (K * V)).
Proof. constructor. Qed.

End DictFacts.

(* ------------------------------------------------------------------ *)
(** ** Floats: the quotient of two counts lies between 0 and 1 *)

Section FloatFacts.
Local Open Scope Z_scope.

Lemma fexp_eq x : fexp prec emax x = Z.max (x - 53) (-1074).
Proof. reflexivity. Qed.

Lemma digits2_pos_size p : digits2_pos p = Pos.size p.
Proof. induction p; simpl; congruence. Qed.

Lemma digits2_pos_bounds p :
  2 ^ (Zpos (digits2_pos p) - 1) <= Zpos p < 2 ^ Zpos (digits2_pos p).
Proof.
  rewrite digits2_pos_size. split.
  - pose proof (Pos.size_le p) as L.
    assert (2 ^ Zpos (Pos.size p) <= 2 * Zpos p) as L'.
    { rewrite <- Pos2Z.inj_pow. change (2 * Zpos p) with (Zpos p~0). now apply Pos2Z.pos_le_pos. }
    replace (Zpos (Pos.size p)) with (Z.succ (Zpos (Pos.size p) - 1)) in L' by lia.
    rewrite Z.pow_succ_r in L' by lia. lia.
  - pose proof (Pos.size_gt p) as G.
    rewrite <- Pos2Z.inj_pow. now apply Pos2Z.pos_lt_pos.
Qed.

Lemma Zdigits2_nonneg m : 0 <= Zdigits2 m.
Proof. destruct m; simpl; lia. Qed.

Lemma Zdigits2_le m d : 0 <= m -> 0 <= d -> m < 2 ^ d -> Zdigits2 m <= d.
Proof.
  intros Hm Hd Hlt. destruct m as [|p|p]; simpl; [lia| |lia].
  destruct (digits2_pos_bounds p) as [L _].
  assert (2 ^ (Zpos (digits2_pos p) - 1) < 2 ^ d) as P by lia.
  apply Z.pow_lt_mono_r_iff in P; lia.
Qed.

Lemma shr_1_m r : 0 <= shr_m r -> shr_m (shr_1 r) = shr_m r / 2.
Proof.
  destruct r as [m b s]; simpl. intros Hm.
  rewrite <- Z.div2_div.
  destruct m as [|[p|p|]|p]; simpl; try reflexivity; lia.
Qed.

Lemma iter_shr_1_m p : forall r, 0 <= shr_m r ->
  shr_m (iter_pos shr_1 p r) = shr_m r / 2 ^ Zpos p.
Proof.
  induction p as [p IH|p IH|]; intros r Hr; cbn [iter_pos].
  - assert (0 <= shr_m (shr_1 r)) as H1 by (rewrite shr_1_m by lia; apply Z.div_pos; lia).
    assert (0 <= shr_m (iter_pos shr_1 p (shr_1 r))) as H2
      by (rewrite IH by lia; apply Z.div_pos; [lia | apply Z.pow_pos_nonneg; lia]).
    rewrite IH, IH, shr_1_m by lia.
    rewrite !Z.div_div by (try lia; apply Z.pow_pos_nonneg; lia).
    f_equal. change (Zpos p~1) with (2 * Zpos p + 1).
    replace (2 * Zpos p + 1) with (1 + Zpos p + Zpos p) by lia.
    rewrite !Z.pow_add_r by lia. lia.
  - assert (0 <= shr_m (iter_pos shr_1 p r)) as H2
      by (rewrite IH by lia; apply Z.div_pos; [lia | apply Z.pow_pos_nonneg; lia]).
    rewrite IH, IH by lia.
    rewrite !Z.div_div by (try lia; apply Z.pow_pos_nonneg; lia).
    f_equal. change (Zpos p~0) with (2 * Zpos p).
    replace (2 * Zpos p) with (Zpos p + Zpos p) by lia.
    rewrite !Z.pow_add_r by lia. lia.
  - rewrite shr_1_m by lia. reflexivity.
Qed.

Lemma shr_record_of_loc_m m l : shr_m (shr_record_of_loc m l) = m.
Proof. destruct l as [|[]]; reflexivity. Qed.

Lemma shr_spec r e n : 0 <= shr_m r ->
  (n <= 0 /\ shr r e n = (r, e)) \/
  (0 < n /\ exists r', shr r e n = (r', e + n) /\ shr_m r' = shr_m r / 2 ^ n).
Proof.
  intros Hr. destruct n as [|p|p]; simpl.
  - left; split; [lia | reflexivity].
  - right; split; [lia|]. eexists; split; [reflexivity|]. now apply iter_shr_1_m.
  - left; split; [lia | reflexivity].
Qed.

Lemma round_nearest_even_bounds m l :
  m <= round_nearest_even m l <= m + 1.
Proof. destruct l as [|[]]; simpl; try lia. destruct (Z.even m); lia. Qed.

(** The result of rounding a value below one. *)
Definition le_one_shape (x : spec_float) : Prop :=
  match x with
  | S754_zero false => True
  | S754_finite false m e => e < -52 \/ (e = -52 /\ Zpos m <= 4503599627370496)
  | _ => False
  end.

Lemma shr_fexp_bounds m e l b :
  0 <= m -> e <= -53 -> m <= 2 ^ (- e) -> (b = true -> m < 2 ^ (- e)) ->
  exists r' e', shr_fexp prec emax m e l = (r', e') /\
    0 <= shr_m r' /\ e' <= (if b then -53 else -52) /\ shr_m r' <= 2 ^ (- e') /\
    (b = true -> shr_m r' < 2 ^ (- e')).
Proof.
  intros Hm He Hle Hlt. unfold shr_fexp.
  destruct (shr_spec (shr_record_of_loc m l) e
              (fexp prec emax (Zdigits2 m + e) - e)) as [[Hn Hs]|[Hn [r' [Hs Hr']]]];
    try (rewrite shr_record_of_loc_m; assumption).
  - rewrite Hs. exists (shr_record_of_loc m l), e.
    rewrite shr_record_of_loc_m. repeat split; try assumption; try lia.
    destruct b; lia.
  - rewrite Hs. exists r', (e + (fexp prec emax (Zdigits2 m + e) - e)).
    rewrite shr_record_of_loc_m in Hr'.
    set (n := fexp prec emax (Zdigits2 m + e) - e) in *.
    assert (0 < 2 ^ n) as Pn by (apply Z.pow_pos_nonneg; lia).
    assert (e + n <= (if b then -53 else -52)) as He'.
    { unfold n. rewrite fexp_eq.
      destruct b.
      - assert (Zdigits2 m <= - e) by (apply Zdigits2_le; auto; lia). lia.
      - assert (Zdigits2 m <= - e + 1).
        { apply Zdigits2_le; try lia.
          replace (- e + 1) with (Z.succ (- e)) by lia.
          rewrite Z.pow_succ_r by lia.
          assert (0 < 2 ^ (- e)) by (apply Z.pow_pos_nonneg; lia). lia. }
        lia. }
    assert (2 ^ (- e) = 2 ^ n * 2 ^ (- (e + n))) as Hsplit.
    { rewrite <- Z.pow_add_r; [f_equal; lia | lia | destruct b; lia]. }
    split; [reflexivity|]. rewrite Hr'.
    split; [apply Z.div_pos; lia|].
    split; [assumption|].
    split.
    + apply Z.div_le_upper_bound; [lia|]. lia.
    + intros Hb. apply Z.div_lt_upper_bound; [lia|]. specialize (Hlt Hb). lia.
Qed.

Lemma binary_round_aux_le_one mx ex lx :
  0 <= mx -> ex <= -53 -> mx < 2 ^ (- ex) ->
  le_one_shape (binary_round_aux prec emax false mx ex lx).
Proof.
  intros Hm He Hlt. unfold binary_round_aux.
  destruct (shr_fexp_bounds (m:=mx) (e:=ex) lx (b:=true)) as (r1 & e1 & E1 & P1 & Q1 & _ & S1);
    try lia.
  rewrite E1. specialize (S1 eq_refl). simpl in Q1.
  pose proof (round_nearest_even_bounds (shr_m r1) (loc_of_shr_record r1)) as B.
  set (m1 := round_nearest_even (shr_m r1) (loc_of_shr_record r1)) in *.
  destruct (shr_fexp_bounds (m:=m1) (e:=e1) loc_Exact (b:=false)) as (r2 & e2 & E2 & P2 & Q2 & R2 & _);
    try lia; try discriminate.
  rewrite E2. simpl in Q2.
  destruct (shr_m r2) as [|p|p] eqn:M2; [exact I | | lia].
  replace (e2 <=? emax - prec) with true by (symmetry; apply Z.leb_le; unfold emax, prec; lia).
  unfold le_one_shape.
  destruct (Z.eq_dec e2 (-52)) as [->|]; [right | left; lia].
  split; [reflexivity | exact R2].
Qed.


Lemma le_one_shape_in_unit x : le_one_shape x -> in_unit x.
Proof.
  unfold in_unit, leb, SFleb, f0_0, f1_0.
  destruct x as [[|]|[|]| |[|] m e]; cbn [le_one_shape]; try tauto; intros H.
  cbn [SFcompare]. split; [reflexivity|].
  destruct H as [H|[-> H]].
  - apply Z.compare_lt_iff in H. now rewrite H.
  - rewrite Z.compare_refl.
    generalize dependent (4503599627370496%positive). intros c H.
    assert (Pos.compare_cont Eq m c <> Gt) as H' by exact H.
    destruct (Pos.compare_cont Eq m c); [reflexivity | reflexivity | congruence].
Qed.

Lemma SFdiv_core_le a b :
  (a <= b)%positive ->
  exists e q l, SFdiv_core_binary prec emax (Zpos a) 0 (Zpos b) 0 = (q, e, l) /\
     e <= -53 /\ q = (Zpos a * 2 ^ (- e)) / Zpos b /\
     (a = b -> e = -53 /\ l = loc_Exact).
Proof.
  intros Hab. unfold SFdiv_core_binary.
  set (d1 := Zdigits2 (Zpos a)). set (d2 := Zdigits2 (Zpos b)).
  assert (d1 <= d2) as Hd.
  { unfold d1, d2. apply Zdigits2_le; try lia.
    - apply Zdigits2_nonneg.
    - simpl. pose proof (digits2_pos_bounds b). lia. }
  set (e := Z.min (fexp prec emax (d1 + 0 - (d2 + 0))) (0 - 0)).
  assert (e <= -53) as He by (unfold e; rewrite fexp_eq; lia).
  destruct (0 - 0 - e) as [|s|s] eqn:Es; try lia.
  rewrite Z.shiftl_mul_pow2 by lia.
  replace (- e) with (Zpos s) by lia.
  destruct (Z.div_eucl (Zpos a * 2 ^ Zpos s) (Zpos b)) as [q r] eqn:Eq.
  exists e, q, (new_location (Zpos b) r).
  split; [reflexivity|]. split; [assumption|].
  split.
  { replace (- e) with (Zpos s) by lia. unfold Z.div. rewrite Eq. reflexivity. }
  intros ->.
  split.
  - unfold e, d1, d2. rewrite fexp_eq. lia.
  - assert (r = 0) as ->.
    { assert (r = (Zpos b * 2 ^ Zpos s) mod Zpos b) as -> by (unfold Z.modulo; rewrite Eq; reflexivity).
      rewrite Z.mul_comm. apply Z.mod_mul. lia. }
    unfold new_location, new_location_even, new_location_odd.
    destruct (Z.even (Zpos b)); reflexivity.
Qed.

Lemma truediv_pos_in_unit (a b : positive) :
  (a <= b)%positive ->
  in_unit (SFdiv prec emax (S754_finite false a 0) (S754_finite false b 0)).
Proof.
  intros Hab.
  destruct (SFdiv_core_le Hab) as (e & q & l & Ec & He & Hq & Heq).
  unfold SFdiv. rewrite Ec. cbn [xorb].
  assert (0 < 2 ^ (- e)) as P by (apply Z.pow_pos_nonneg; lia).
  destruct (Pos.eq_dec a b) as [->|Hne].
  - destruct (Heq eq_refl) as [-> ->].
    replace q with (2 ^ 53).
    + split; vm_compute; reflexivity.
    + rewrite Hq. rewrite Z.mul_comm. symmetry. apply Z.div_mul. lia.
  - apply le_one_shape_in_unit. apply binary_round_aux_le_one; try assumption.
    + rewrite Hq. apply Z.div_pos; lia.
    + rewrite Hq. apply Z.div_lt_upper_bound; [lia|].
      assert (Zpos a < Zpos b) by lia. nia.
Qed.

Lemma truediv_in_unit (a b : N) : (a <= b)%N -> (0 < b)%N -> in_unit (truediv a b).
Proof.
  intros Hab Hb. unfold truediv.
  destruct b as [|b]; [lia|]. destruct a as [|a]; simpl.
  - split; reflexivity.
  - apply truediv_pos_in_unit. lia.
Qed.

Lemma confidence_in_unit (top_count total : N) :
  (top_count <= total)%N -> (0 < total)%N ->
  in_unit (penalize total (truediv top_count total)).
Proof.
  intros Hle Hpos. unfold penalize.
  destruct (total <? MIN_COUNT_FOR_CONFIDENCE)%N eqn:Hsmall.
  - apply N.ltb_lt in Hsmall. unfold MIN_COUNT_FOR_CONFIDENCE in Hsmall.
    assert (total = 1 \/ total = 2 \/ total = 3 \/ total = 4)%N
      as [-> | [-> | [-> | ->]]] by lia;
    [ assert (top_count = 0 \/ top_count = 1)%N as [-> | ->] by lia
    | assert (top_count = 0 \/ top_count = 1 \/ top_count = 2)%N
        as [->|[-> | ->]] by lia
    | assert (top_count = 0 \/ top_count = 1 \/ top_count = 2 \/ top_count = 3)%N
        as [->|[->|[-> | ->]]] by lia
    | assert (top_count = 0 \/ top_count = 1 \/ top_count = 2 \/ top_count = 3
              \/ top_count = 4)%N as [->|[->|[->|[-> | ->]]]] by lia ];
    split; vm_compute; reflexivity.
  - cbn [andb]. now apply truediv_in_unit.
Qed.

End FloatFacts.

Unset Implicit Arguments.

(* ------------------------------------------------------------------ *)
(** ** Counters *)

Lemma In_set {K V : Type} {EK : Eqb K} (k k' : K) (v v' : V) (d : Dict.dict K V) :
  In (k', v') (Dict.set k v d) -> (k', v') = (k, v) \/ In (k', v') d
  \/ (exists v0, In (k', v0) d /\ v' = v /\ eqb_key k' k = true).
Proof.
  induction d as [|[k0 v0] d IH]; simpl.
  - intros [H|[]]. left; congruence.
  - destruct (eqb_key k0 k) eqn:Ek; simpl.
    + intros [H|H]; [|auto]. injection H as <- <-.
      right; right. exists v0; auto.
    + intros [H|H]; [auto|].
      destruct (IH H) as [A|[A|(v1 & A & B & C)]]; auto.
      right; right. exists v1; auto.
Qed.

Lemma In_set_laws {K V : Type} {EK : Eqb K} {LK : EqbLaws EK}
    (k k' : K) (v v' : V) (d : Dict.dict K V) :
  In (k', v') (Dict.set k v d) -> (k', v') = (k, v) \/ In (k', v') d.
Proof.
  intros H. apply In_set in H. destruct H as [A|[A|(v0 & A & -> & C)]]; auto.
  apply eqb_key_spec in C; subst; auto.
Qed.

Lemma total_cons g c (ctr : counter) : total ((g, c) :: ctr) = (c + total ctr)%N.
Proof. reflexivity. Qed.

Lemma total_set g v (ctr : counter) :
  (total (Dict.set g v ctr) + match Dict.get g ctr with Some n => n | None => 0 end
   = total ctr + v)%N.
Proof.
  induction ctr as [|[g' c] ctr IH]; unfold total in *; simpl.
  - lia.
  - destruct (eqb_key g' g) eqn:E; simpl; lia.
Qed.

Lemma total_incr g (ctr : counter) : total (incr g ctr) = (total ctr + 1)%N.
Proof.
  unfold incr. pose proof (total_set g
    (match Dict.get g ctr with Some n => n | None => 0 end + 1)%N ctr). lia.
Qed.

Lemma total_ge_item (ctr : counter) x : In x ctr -> (snd x <= total ctr)%N.
Proof.
  induction ctr as [|[g c] ctr IH]; simpl; [tauto|].
  rewrite total_cons. intros [<-|H]; simpl; [lia|]. specialize (IH H). lia.
Qed.

(** [first_max] returns the first item of maximal count. *)
Lemma first_max_spec items : forall best,
  exists l1 l2,
    best :: items = l1 ++ first_max best items :: l2 /\
    (forall x, In x l1 -> (snd x < snd (first_max best items))%N) /\
    (forall x, In x l2 -> (snd x <= snd (first_max best items))%N).
Proof.
  induction items as [|x items IH]; intros best; simpl.
  - exists [], []. simpl; repeat split; tauto.
  - destruct (snd best <? snd x)%N eqn:C.
    + apply N.ltb_lt in C.
      destruct (IH x) as (l1 & l2 & E & A & B).
      exists (best :: l1), l2. simpl. rewrite <- E. split; [reflexivity|].
      split; [|assumption].
      intros y [<-|Hy]; [|auto].
      assert (snd x <= snd (first_max x items))%N; [|lia].
      destruct l1 as [|z l1]; simpl in E.
      * injection E as Ex _. rewrite <- Ex. lia.
      * injection E as <- _. specialize (A x (or_introl eq_refl)). lia.
    + apply N.ltb_ge in C.
      destruct (IH best) as (l1 & l2 & E & A & B).
      destruct l1 as [|z l1]; simpl in E.
      * injection E as Eb El.
        exists [], (x :: l2). simpl. rewrite <- Eb, <- El.
        split; [reflexivity|]. split; [tauto|].
        intros y [<-|Hy]; [lia|]. rewrite Eb. apply B. rewrite <- El. exact Hy.
      * injection E as <- El.
        exists (best :: x :: l1), l2. simpl.
        split; [do 2 f_equal; exact El|]. split; [|assumption].
        intros y [<-|[<-|Hy]].
        -- apply A; left; reflexivity.
        -- specialize (A best (or_introl eq_refl)). lia.
        -- apply A; right; exact Hy.
Qed.

Lemma most_common_1_spec (ctr : counter) g c rest :
  most_common_1 ctr = (g, c) :: rest ->
  rest = [] /\
  exists l1 l2, ctr = l1 ++ (g, c) :: l2 /\
    (forall x, In x l1 -> (snd x < c)%N) /\ (forall x, In x l2 -> (snd x <= c)%N).
Proof.
  destruct ctr as [|x items]; simpl; [discriminate|].
  intros H. injection H as H <-. split; [reflexivity|].
  destruct (first_max_spec items x) as (l1 & l2 & E & A & B).
  rewrite H in *. exists l1, l2. auto.
Qed.

Lemma most_common_1_nonempty (ctr : counter) :
  total ctr <> 0%N -> most_common_1 ctr <> [].
Proof. destruct ctr; simpl; [intros H; now elim H | discriminate]. Qed.

(** What an entry of either mapping is, in terms of its counter. *)
Lemma country_entry_spec (ctr : counter) e :
  country_entry ctr = Some e ->
  exists c, In (entry_gender e, c) ctr /\ (c <= total ctr)%N /\ (0 < total ctr)%N /\
    entry_conf e = penalize (total ctr) (truediv c (total ctr)) /\
    entry_total e = total ctr.
Proof.
  unfold country_entry. destruct (total ctr =? 0)%N eqn:T; [discriminate|].
  apply N.eqb_neq in T.
  destruct (most_common_1 ctr) as [|[g c] rest] eqn:Em; [discriminate|].
  intros H; injection H as <-.
  destruct (most_common_1_spec _ _ _ _ Em) as (_ & l1 & l2 & E & _ & _).
  assert (In (g, c) ctr) as I by (rewrite E; apply in_or_app; right; left; reflexivity).
  exists c. unfold entry_gender, entry_conf, entry_total; simpl.
  repeat split; auto; [apply (total_ge_item _ _ I) | lia].
Qed.

Lemma global_entry_country_entry (ctr : counter) :
  global_entry ctr = country_entry ctr.
Proof.
  unfold global_entry, country_entry.
  destruct (total ctr =? 0)%N eqn:T; [reflexivity|].
  apply N.eqb_neq in T.
  replace (0 <? total ctr)%N with true by (symmetry; apply N.ltb_lt; lia).
  reflexivity.
Qed.

Lemma entry_in_unit (ctr : counter) e :
  country_entry ctr = Some e -> in_unit (entry_conf e).
Proof.
  intros H. destruct (country_entry_spec _ _ H) as (c & _ & L & P & -> & _).
  now apply confidence_in_unit.
Qed.

Lemma country_entry_some (ctr : counter) :
  total ctr <> 0%N -> exists e, country_entry ctr = Some e /\ entry_total e = total ctr.
Proof.
  intros T. unfold country_entry.
  replace (total ctr =? 0)%N with false by (symmetry; now apply N.eqb_neq).
  pose proof (most_common_1_nonempty _ T) as NE.
  destruct (most_common_1 ctr) as [|[g c] rest]; [congruence|].
  eexists; split; reflexivity.
Qed.

(* ------------------------------------------------------------------ *)
(** ** The two mappings in terms of the counts *)

Lemma build_mapping_fold_In (cg : counts) : forall acc f e,
  In (f, e)
    (fold_left
       (fun mapping (item : str * counter) =>
          match global_entry (snd item) with
          | Some e => Dict.set (fst item) e mapping
          | None => mapping
          end) cg acc) ->
  In (f, e) acc \/ exists ctr, In (f, ctr) cg /\ global_entry ctr = Some e.
Proof.
  induction cg as [|[k c] cg IH]; intros acc f e; simpl; [auto|].
  intros H. apply IH in H. destruct H as [H|(ctr & I & G)].
  - destruct (global_entry c) as [e0|] eqn:G; [|auto].
    apply In_set_laws in H. destruct H as [H|H]; [|auto].
    injection H as -> ->. right. exists c; auto.
  - right. exists ctr; auto.
Qed.

Lemma build_mapping_fold_get (cg : counts) : forall acc f,
  Dict.wf cg ->
  Dict.get f
    (fold_left
       (fun mapping (item : str * counter) =>
          match global_entry (snd item) with
          | Some e => Dict.set (fst item) e mapping
          | None => mapping
          end) cg acc)
  = match Dict.get f cg with
    | Some ctr =>
        match global_entry ctr with Some e => Some e | None => Dict.get f acc end
    | None => Dict.get f acc
    end.
Proof.
  unfold Dict.wf.
  induction cg as [|[k c] cg IH]; intros acc f W; simpl; [reflexivity|].
  simpl in W. inversion W as [|? ? NI W']; subst.
  rewrite IH by assumption.
  destruct (eqb_key k f) eqn:Ek.
  - apply eqb_key_spec in Ek; subst k.
    apply get_None_keys in NI. rewrite NI.
    destruct (global_entry c); [apply get_set_same | reflexivity].
  - assert (k <> f) as Nk by (intros ->; now rewrite eqb_key_refl in Ek).
    assert (Dict.get f (match global_entry c with
                        | Some e => Dict.set k e acc
                        | None => acc
                        end) = Dict.get f acc) as ->
      by (destruct (global_entry c); [now apply get_set_other | reflexivity]).
    reflexivity.
Qed.

Lemma build_mapping_get (cg : counts) f :
  Dict.wf cg ->
  Dict.get f (build_mapping cg) =
  match Dict.get f cg with Some ctr => global_entry ctr | None => None end.
Proof.
  intros W. unfold build_mapping. rewrite build_mapping_fold_get by assumption.
  simpl. destruct (Dict.get f cg) as [ctr|]; [|reflexivity].
  destruct (global_entry ctr); reflexivity.
Qed.

Lemma country_inner_fold_In (c : str) (d : counts) : forall acc k e,
  In (k, e)
    (fold_left
       (fun mc (item : str * counter) =>
          match country_entry (snd item) with
          | Some e => Dict.set (c, fst item) e mc
          | None => mc
          end) d acc) ->
  In (k, e) acc \/
  exists f ctr, k = (c, f) /\ In (f, ctr) d /\ country_entry ctr = Some e.
Proof.
  induction d as [|[f0 c0] d IH]; intros acc k e; simpl; [auto|].
  intros H. apply IH in H. destruct H as [H|(f & ctr & -> & I & G)].
  - destruct (country_entry c0) as [e0|] eqn:G; [|auto].
    apply In_set_laws in H. destruct H as [H|H]; [|auto].
    injection H as -> ->. right. exists f0, c0; auto.
  - right. exists f, ctr; auto.
Qed.

Lemma build_mapping_country_fold_In (cc : Dict.dict str counts) : forall acc k e,
  In (k, e)
    (fold_left
       (fun mc (citem : str * counts) =>
          fold_left
            (fun mc (item : str * counter) =>
               match country_entry (snd item) with
               | Some e => Dict.set (fst citem, fst item) e mc
               | None => mc
               end) (snd citem) mc) cc acc) ->
  In (k, e) acc \/
  exists d ctr, In (fst k, d) cc /\ In (snd k, ctr) d /\ country_entry ctr = Some e.
Proof.
  induction cc as [|[c d] cc IH]; intros acc k e; simpl; [auto|].
  intros H. apply IH in H. destruct H as [H|(d' & ctr & I & J & G)].
  - apply country_inner_fold_In in H.
    destruct H as [H|(f & ctr & -> & I & G)]; [auto|].
    right. exists d, ctr; simpl; auto.
  - right. exists d', ctr; auto.
Qed.

Lemma build_mapping_country_In (cc : Dict.dict str counts) c f e :
  In ((c, f), e) (build_mapping_country cc) ->
  exists d ctr, In (c, d) cc /\ In (f, ctr) d /\ country_entry ctr = Some e.
Proof.
  intros H. apply build_mapping_country_fold_In in H.
  destruct H as [[]|H]. exact H.
Qed.

(* ------------------------------------------------------------------ *)
(** ** Invariants of the reference pass *)

(** The global counts have no repeated name, and every counter of a
    country is dominated by the global counter of the same name. *)
Definition agg_inv (cg : counts) (cc : Dict.dict str counts) : Prop :=
  Dict.wf cg /\
  forall c d f ctr, In (c, d) cc -> In (f, ctr) d ->
    exists ctr', Dict.get f cg = Some ctr' /\ (total ctr <= total ctr')%N.

Lemma bump_get fname g (cg : counts) f :
  Dict.get f (bump fname g cg) =
  if eqb_key fname f
  then Some (incr g (match Dict.get fname cg with Some ctr => ctr | None => [] end))
  else Dict.get f cg.
Proof. unfold bump. apply get_set. Qed.

Lemma agg_inv_bump fname g cg cc :
  agg_inv cg cc -> agg_inv (bump fname g cg) cc.
Proof.
  intros [W D]. split; [now apply wf_set|].
  intros c d f ctr I J. destruct (D c d f ctr I J) as (ctr' & G & L).
  rewrite bump_get. destruct (eqb_key fname f) eqn:E.
  - apply eqb_key_spec in E; subst f. rewrite G.
    eexists; split; [reflexivity|]. rewrite total_incr. lia.
  - exists ctr'; auto.
Qed.

Lemma agg_inv_bump_both country fname g cg cc :
  agg_inv cg cc ->
  agg_inv (bump fname g cg) (bump_country country fname g cc).
Proof.
  intros Inv. pose proof (agg_inv_bump fname g _ _ Inv) as [W' D'].
  destruct Inv as [W D]. split; [assumption|].
  intros c d f ctr I J. unfold bump_country in I.
  apply In_set_laws in I. destruct I as [I|I]; [|eauto].
  injection I as -> ->. unfold bump in J.
  apply In_set_laws in J. destruct J as [J|J].
  - injection J as -> ->. rewrite bump_get, eqb_key_refl.
    eexists; split; [reflexivity|]. rewrite !total_incr.
    destruct (Dict.get country cc) as [d0|] eqn:Gc.
    + destruct (Dict.get fname d0) as [c0|] eqn:Gf.
      * apply get_In in Gc. apply get_In in Gf.
        destruct (D _ _ _ _ Gc Gf) as (ctr' & G & L). rewrite G. lia.
      * unfold total at 1; simpl. lia.
    + simpl. unfold total at 1; simpl. lia.
  - destruct (Dict.get country cc) as [d0|] eqn:Gc; [|destruct J].
    apply get_In in Gc.
    destruct (D _ _ _ _ Gc J) as (ctr' & G & L).
    rewrite bump_get. destruct (eqb_key fname f) eqn:E.
    + apply eqb_key_spec in E; subst f. rewrite G.
      eexists; split; [reflexivity|]. rewrite total_incr. lia.
    + exists ctr'; auto.
Qed.

Lemma agg_inv_read_first_row first_row st :
  agg_inv (counts_global st) (counts_by_country st) ->
  agg_inv (counts_global (read_first_row first_row st))
          (counts_by_country (read_first_row first_row st)).
Proof.
  intros Inv. unfold read_first_row.
  destruct (negb (nonempty first_row)); [assumption|].
  destruct (Str.mem _ _); simpl; [assumption|].
  destruct (nonempty _); simpl; [now apply agg_inv_bump | assumption].
Qed.

Lemma agg_inv_ref_step st r :
  agg_inv (counts_global st) (counts_by_country st) ->
  agg_inv (counts_global (ref_step st r)) (counts_by_country (ref_step st r)).
Proof.
  intros Inv. unfold ref_step.
  destruct (negb (nonempty r)); [assumption|].
  destruct (negb (nonempty _)); [assumption|]. simpl.
  destruct (country_idx st) as [ci|]; [|now apply agg_inv_bump].
  destruct (nonempty _); [now apply agg_inv_bump_both | now apply agg_inv_bump].
Qed.

Lemma agg_inv_fold rows : forall st,
  agg_inv (counts_global st) (counts_by_country st) ->
  agg_inv (counts_global (fold_left ref_step rows st))
          (counts_by_country (fold_left ref_step rows st)).
Proof.
  induction rows as [|r rows IH]; intros st Inv; simpl; [assumption|].
  apply IH. now apply agg_inv_ref_step.
Qed.

Lemma agg_inv_aggregate reference :
  agg_inv (counts_global (aggregate reference))
          (counts_by_country (aggregate reference)).
Proof.
  assert (agg_inv (counts_global ref_init) (counts_by_country ref_init)) as I0.
  { split; [apply wf_nil | intros c d f ctr []]. }
  destruct reference as [|first_row rest]; simpl; [assumption|].
  apply agg_inv_fold. now apply agg_inv_read_first_row.
Qed.

(* ================================================================== *)
(** * The claims *)

(** C6. [get_first_name] on initials: "K N Johnson" gives the empty
    token (the second token is a single character too), "K Johnson"
    gives "johnson" and "Mary Ann Smith" gives "mary". *)
Theorem get_first_name_initials :
  get_first_name (lit "K N Johnson") = [] /\
  get_first_name (lit "K Johnson") = lit "johnson" /\
  get_first_name (lit "Mary Ann Smith") = lit "mary".
Proof. repeat split; vm_compute; reflexivity. Qed.

(** C5, as stated, fails: the confidence stored for the counts
    {M:3, F:1} is not the float 0.525. *)
Lemma penalty_not_0_525 :
  ~ (exists e, global_entry [(M, 3%N); (F, 1%N)] = Some e /\ entry_conf e = f0_525).
Proof. intros (e & H & C). vm_compute in H. injection H as <-. discriminate C. Qed.

(** C5, amended. The counts {M:8, F:2} give the confidence 0.8 with no
    penalty. The counts {M:3, F:1} give the binary64 product of 0.75 and
    0.7, which is the float just below 0.525 (a tie rounded to even) and
    is printed "0.525" with three decimals. *)
Theorem low_sample_penalty :
  global_entry [(M, 8%N); (F, 2%N)] = Some (M, f0_8, 10%N) /\
  truediv 3 4 = f0_75 /\
  global_entry [(M, 3%N); (F, 1%N)] = Some (M, mul f0_75 f0_7, 4%N) /\
  mul f0_75 f0_7 = S754_finite false 4728779608739020 (-53) /\
  ltb (mul f0_75 f0_7) f0_525 = true /\
  format3 (mul f0_75 f0_7) = lit "0.525".
Proof. repeat split; vm_compute; reflexivity. Qed.

(** C1, as stated, fails: the global entry of "alex" does not carry the
    confidence 0.667, and the decision for ("Alex Smith", "US") is not
    written with 0.667. *)
Lemma alex_scenario_not_0_667 :
  let E := build_env alex_reference None in
  ~ (exists c, Dict.get (lit "alex") (mapping E) = Some (F, c, 3%N) /\
               format3 c = lit "0.667") /\
  format3 (chosen_conf (decide E (lit "US") (lit "alex"))) <> lit "0.667".
Proof.
  split.
  - intros (c & H & C). vm_compute in H. injection H as <-.
    vm_compute in C. discriminate C.
  - vm_compute. discriminate.
Qed.

(** C1, amended. The three "Alex" rows give the global entry
    (F, (2/3)*0.7, 3), printed 0.467: the total 3 is below 5, so the
    share 2/3 is penalized. The audit lists the name with counts 2 and 1
    and the unpenalized confidence 0.667. With no country data and no
    classifier the row ("Alex Smith", "US") is written with
    (F, 0.467, mapped). *)
Theorem alex_scenario :
  let E := build_env alex_reference None in
  counts_global (aggregate alex_reference) = [(lit "alex", [(M, 1%N); (F, 2%N)])] /\
  mapping E = [(lit "alex", (F, mul (truediv 2 3) f0_7, 3%N))] /\
  format3 (mul (truediv 2 3) f0_7) = lit "0.467" /\
  mapping_country E = [] /\
  List.map audit_row (audit (counts_global (aggregate alex_reference))) =
    [[lit "alex"; lit "F"; lit "2"; lit "1"; lit "3"; lit "0.667"]] /\
  audit_flag 3 2 1 (truediv 2 3) 2 = true /\
  (Z.of_N 2 - Z.of_N 1 <? 3)%Z = true /\
  ltb (mul (truediv 2 3) f0_7) CONF_THRESHOLD = true /\
  decision_fields (decide E (lit "US") (lit "alex")) =
    [lit "F"; lit "0.467"; lit "mapped"] /\
  decision_phase E [[lit "Name"; lit "Country"]; [lit "Alex Smith"; lit "US"]] =
    [[lit "Name"; lit "Country"; lit "Gender"; lit "GenderConfidence";
      lit "GenderSource"];
     [lit "Alex Smith"; lit "US"; lit "F"; lit "0.467"; lit "mapped"]].
Proof. repeat split; vm_compute; reflexivity. Qed.

(** C4, as stated, fails: after the rows ("Alex","F"), ("Alex","M") the
    two labels tie, Male is the first of them in the order Male, Female,
    Unknown, and the stored label is Female. *)
Lemma tie_break_not_enum_order :
  let cg := counts_global (aggregate tie_reference_FM) in
  exists ctr e,
    Dict.get (lit "alex") cg = Some ctr /\
    count_of M ctr = max_count ctr /\ count_of F ctr = max_count ctr /\
    Dict.get (lit "alex") (build_mapping cg) = Some e /\
    enum_first_top ctr = M /\ entry_gender e = F.
Proof.
  eexists; eexists. repeat split; vm_compute; reflexivity.
Qed.

(** C4, amended. The stored top label of a counter is the label of
    maximal count that was inserted first: every label before it in the
    counter has a smaller count, every label after it has no greater
    count. Labels enter a counter in the order in which the reference rows
    show them, so the rows M, F store M and the rows F, M store F. *)
Theorem tie_break_first_inserted (ctr : counter) (e : entry) :
  global_entry ctr = Some e \/ country_entry ctr = Some e ->
  (exists l1 c l2,
     ctr = l1 ++ (entry_gender e, c) :: l2 /\
     (forall x, In x l1 -> (snd x < c)%N) /\
     (forall x, In x l2 -> (snd x <= c)%N)) /\
  option_map entry_gender
    (Dict.get (lit "alex") (build_mapping (counts_global (aggregate tie_reference_MF))))
    = Some M /\
  option_map entry_gender
    (Dict.get (lit "alex") (build_mapping (counts_global (aggregate tie_reference_FM))))
    = Some F.
Proof.
  intros H. rewrite global_entry_country_entry in H.
  assert (country_entry ctr = Some e) as H' by tauto. clear H.
  split; [|split; vm_compute; reflexivity].
  unfold country_entry in H'.
  destruct (total ctr =? 0)%N; [discriminate|].
  destruct (most_common_1 ctr) as [|[g c] rest] eqn:Em; [discriminate|].
  injection H' as <-.
  destruct (most_common_1_spec _ _ _ _ Em) as (_ & l1 & l2 & -> & A & B).
  exists l1, c, l2. auto.
Qed.

Lemma tie_break_first_inserted_witness :
  exists l1 c l2,
    [(F, 1%N); (M, 1%N)] = l1 ++ (F, c) :: l2 /\
    (forall x, In x l1 -> (snd x < c)%N) /\
    (forall x, In x l2 -> (snd x <= c)%N).
Proof.
  apply (tie_break_first_inserted [(F, 1%N); (M, 1%N)]
           (F, mul (truediv 1 2) f0_7, 2%N)).
  left. vm_compute. reflexivity.
Defined.

(** C8. For every reference file, every entry of the global mapping and
    of the country mapping has a confidence between 0 and 1. *)
Theorem confidence_range (reference : list row) (gg : detector) :
  Forall (fun kv => in_unit (entry_conf (snd kv)))
    (mapping (build_env reference gg)) /\
  Forall (fun kv => in_unit (entry_conf (snd kv)))
    (mapping_country (build_env reference gg)).
Proof.
  split; apply Forall_forall; intros [k e] I; simpl in *.
  - unfold build_mapping in I. apply build_mapping_fold_In in I.
    destruct I as [[]|(ctr & _ & G)].
    rewrite global_entry_country_entry in G. now apply (entry_in_unit ctr).
  - destruct k as [c f]. apply build_mapping_country_In in I.
    destruct I as (d & ctr & _ & _ & G). now apply (entry_in_unit ctr).
Qed.

(** C10. For every reference file, a (country, name) key of the country
    mapping has its name in the global mapping, and the total of the
    country entry is at most the total of the global entry. *)
Theorem scoped_implies_global (reference : list row) (gg : detector)
    (c f : str) (e : entry) :
  Dict.get (c, f) (mapping_country (build_env reference gg)) = Some e ->
  exists e', Dict.get f (mapping (build_env reference gg)) = Some e' /\
             (entry_total e <= entry_total e')%N.
Proof.
  simpl. intros H. apply get_In in H. apply build_mapping_country_In in H.
  destruct H as (d & ctr & I & J & G).
  destruct (agg_inv_aggregate reference) as [W D].
  destruct (D _ _ _ _ I J) as (ctr' & G' & L).
  destruct (country_entry_spec _ _ G) as (_ & _ & _ & P & _ & T).
  assert (total ctr' <> 0%N) as NZ by lia.
  destruct (country_entry_some _ NZ) as (e' & Ge & Te).
  exists e'. rewrite build_mapping_get by assumption.
  rewrite G', global_entry_country_entry. split; [assumption | lia].
Qed.

Lemma scoped_implies_global_witness :
  exists e', Dict.get (lit "alex") (mapping (build_env country_reference None)) = Some e' /\
             (2 <= entry_total e')%N.
Proof.
  apply (scoped_implies_global country_reference None (lit "US") (lit "alex")
           (M, mul f0_5 f0_7, 2%N)).
  vm_compute. reflexivity.
Defined.

Lemma firstn_app_exact {A : Type} (l l' : list A) :
  firstn (List.length l) (l ++ l') = l.
Proof. induction l as [|x l IH]; simpl; [reflexivity | now rewrite IH]. Qed.

Lemma process_row_data (E : env) (r : row) :
  is_data_row r = true ->
  process_row E r =
  Some (r ++ decision_fields (decide E (row_country r) (get_first_name (hd [] r)))).
Proof.
  destruct r as [|name r]; simpl; [discriminate|].
  destruct (Str.eqb _ _); [discriminate | reflexivity].
Qed.

Lemma process_row_skip (E : env) (r : row) :
  is_data_row r = false -> process_row E r = None.
Proof.
  destruct r as [|name r]; simpl; [reflexivity|].
  destruct (Str.eqb _ _); [reflexivity | discriminate].
Qed.

(** C9. Every row that the decision loop does not skip is written as its
    own fields, unchanged and in order, followed by exactly three fields;
    the rows written after the header are those rows, in order. *)
Theorem row_round_trip (E : env) :
  (forall r, is_data_row r = false -> process_row E r = None) /\
  (forall r, is_data_row r = true ->
     exists g c s, process_row E r = Some (r ++ [g; c; s]) /\
       firstn (List.length r) (r ++ [g; c; s]) = r /\
       List.length (r ++ [g; c; s]) = List.length r + 3) /\
  (forall header rest,
     tl (decision_phase E (header :: rest)) =
     List.map
       (fun r => r ++ decision_fields
                        (decide E (row_country r) (get_first_name (hd [] r))))
       (filter is_data_row rest)).
Proof.
  split; [|split].
  - apply process_row_skip.
  - intros r H. rewrite (process_row_data E r H). unfold decision_fields.
    do 3 eexists. split; [reflexivity|]. split.
    + apply firstn_app_exact.
    + rewrite length_app. reflexivity.
  - intros header rest. cbn [decision_phase tl].
    induction rest as [|r rest IH]; [reflexivity|].
    cbn [process_rows filter].
    destruct (is_data_row r) eqn:D.
    + rewrite (process_row_data E r D). cbn [List.map]. now rewrite IH.
    + rewrite (process_row_skip E r D). exact IH.
Qed.

Lemma row_round_trip_witness :
  exists g c s,
    process_row (build_env alex_reference None) [lit "Alex Smith"; lit "US"] =
      Some ([lit "Alex Smith"; lit "US"] ++ [g; c; s]) /\
    firstn 2 ([lit "Alex Smith"; lit "US"] ++ [g; c; s]) =
      [lit "Alex Smith"; lit "US"] /\
    List.length ([lit "Alex Smith"; lit "US"] ++ [g; c; s]) = 2 + 3.
Proof.
  apply (proj1 (proj2 (row_round_trip (build_env alex_reference None)))).
  vm_compute. reflexivity.
Defined.

(* ------------------------------------------------------------------ *)
(** ** The decision cascade *)

Lemma SFcompare_antisym (x y : float) :
  SFcompare y x = option_map CompOpp (SFcompare x y).
Proof.
  destruct x as [[|]|[|]| |[|] m1 e1], y as [[|]|[|]| |[|] m2 e2];
    try reflexivity; cbn [SFcompare option_map];
    rewrite (Z.compare_antisym e1 e2);
    destruct (e1 ?= e2)%Z; cbn [CompOpp]; try reflexivity;
    pose proof (Pos.compare_cont_antisym m1 m2 Eq) as A; cbn [CompOpp] in A;
    rewrite <- A; destruct (Pos.compare_cont Eq m1 m2); reflexivity.
Qed.

(** [x <= y] and [y < x] exclude each other. *)
Lemma leb_ltb_false (x y : float) : leb x y = true -> ltb y x = true -> False.
Proof.
  unfold leb, ltb, SFleb, SFltb. rewrite (SFcompare_antisym x y).
  destruct (SFcompare x y) as [[| |]|]; cbn [option_map CompOpp]; discriminate.
Qed.

Lemma gender_eqb_Unknown_false g : g <> Unknown -> gender_eqb g Unknown = false.
Proof. destruct g; simpl; congruence. Qed.

Lemma step_fallback_decided (E : env) (fname : str) (l : locals) :
  chosen_gender l <> Unknown -> step_fallback E fname l = l.
Proof.
  intros H. unfold step_fallback.
  now rewrite (gender_eqb_Unknown_false _ H).
Qed.

Lemma step_final_decided (E : env) (fname : str) (l : locals) :
  chosen_gender l <> Unknown \/ Dict.get fname (mapping E) = None ->
  step_final E fname l = l.
Proof.
  intros [H|H]; unfold step_final.
  - now rewrite (gender_eqb_Unknown_false _ H).
  - rewrite H. now destruct (gender_eqb _ _ && _).
Qed.

(** A country entry at or above the threshold, with a label other than
    Unknown, is the decision. *)
Lemma decide_country_mapped (E : env) (country fname : str)
    (g : gender) (conf : float) (t : N) :
  fname <> [] -> g <> Unknown ->
  Dict.get (country, fname) (mapping_country E) = Some (g, conf, t) ->
  leb CONF_THRESHOLD conf = true ->
  decide E country fname = choose g conf src_country_mapped locals_init.
Proof.
  intros NE NU G L. apply nonempty_true in NE.
  unfold decide, step_mapping. rewrite NE, G, L.
  rewrite step_fallback_decided by exact NU.
  apply step_final_decided. left; exact NU.
Qed.

(** C2, as stated, fails: with a country entry (Unknown, 0.70) and a
    global entry (M, 0.90), both built from a reference file, the
    decision is the global entry with source "mapped". *)
Lemma country_unknown_label_falls_through :
  let E := build_env (split_reference "x" "M") None in
  Dict.get (lit "US", lit "alex") (mapping_country E) = Some (Unknown, f0_7, 10%N) /\
  Dict.get (lit "alex") (mapping E) = Some (M, f0_9, 70%N) /\
  get_first_name (lit "Alex Smith") = lit "alex" /\
  decision_fields (decide E (lit "US") (lit "alex")) =
    [lit "M"; lit "0.900"; lit "mapped"].
Proof. repeat split; vm_compute; reflexivity. Qed.

(** C2, amended. When the name token has a country entry of confidence
    0.70 whose label is Male or Female, and a global entry of confidence
    0.90, the decision is the country entry with source
    "country-mapped". *)
Theorem country_precedes_global (E : env) (country fname : str)
    (g g' : gender) (t t' : N) :
  fname <> [] -> g <> Unknown ->
  Dict.get (country, fname) (mapping_country E) = Some (g, f0_7, t) ->
  Dict.get fname (mapping E) = Some (g', f0_9, t') ->
  chosen_gender (decide E country fname) = g /\
  chosen_conf (decide E country fname) = f0_7 /\
  chosen_source (decide E country fname) = src_country_mapped /\
  decision_fields (decide E country fname) =
    [gender_str g; lit "0.700"; lit "country-mapped"].
Proof.
  intros NE NU G _.
  rewrite (decide_country_mapped E country fname g f0_7 t NE NU G eq_refl).
  repeat split.
Qed.

Lemma country_precedes_global_witness :
  let E := build_env (split_reference "M" "F") None in
  chosen_gender (decide E (lit "US") (lit "alex")) = M /\
  chosen_conf (decide E (lit "US") (lit "alex")) = f0_7 /\
  chosen_source (decide E (lit "US") (lit "alex")) = src_country_mapped /\
  decision_fields (decide E (lit "US") (lit "alex")) =
    [gender_str M; lit "0.700"; lit "country-mapped"].
Proof.
  apply (country_precedes_global (build_env (split_reference "M" "F") None)
           (lit "US") (lit "alex") M F 10%N 70%N).
  - discriminate.
  - discriminate.
  - vm_compute. reflexivity.
  - vm_compute. reflexivity.
Defined.

(** C3, as stated, fails when the remembered candidate is a country
    entry. With the low country entry (M, 0.6) remembered:
    - if the global entry is (F, 0.9), a classifier that answers
      (M, 1.0) is not consulted and the decision is (F, 0.900, mapped);
    - if the global entry is (F, 0.35), a classifier that answers
      (Unknown, 0.5) does not exceed the candidate 0.6, yet the decision
      is not the candidate (M, 0.6) but (F, 0.350, mapped). *)
Lemma country_candidate_is_dropped :
  let E1 := build_env (us_6_4_reference (repeat (ref_row "Alex" "F" "DE") 50))
              (always male) in
  let E2 := build_env (us_6_4_reference (repeat (ref_row "Alex" "F" "DE") 3
                                         ++ repeat (ref_row "Alex" "x" "DE") 7))
              (always andy) in
  let l1 := step_mapping E1 (lit "US") (lit "alex") locals_init in
  let l2 := step_mapping E2 (lit "US") (lit "alex") locals_init in
  (chosen_gender l1 = Unknown /\ cand_g l1 = Some M /\
   cand_conf l1 = Some (truediv 6 10) /\
   gg_guess (gg E1) (lit "alex") = (M, f1_0) /\ leb f0_85 f1_0 = true /\
   chosen_source (step_fallback E1 (lit "alex") l1) = src_mapped /\
   decision_fields (decide E1 (lit "US") (lit "alex")) =
     [lit "F"; lit "0.900"; lit "mapped"]) /\
  (chosen_gender l2 = Unknown /\ cand_g l2 = Some M /\
   cand_conf l2 = Some (truediv 6 10) /\
   gg_guess (gg E2) (lit "alex") = (Unknown, f0_5) /\
   leb f0_85 f0_5 = false /\ ltb (truediv 6 10) f0_5 = false /\
   ltb f0_5 (truediv 6 10) = true /\
   decision_fields (decide E2 (lit "US") (lit "alex")) =
     [lit "F"; lit "0.350"; lit "mapped"]).
Proof. repeat split; vm_compute; reflexivity. Qed.

(** The confidence of the global entry of a name, 0.0 when there is
    none: the [cand_conf] that the classifier block computes. *)
Definition global_conf (E : env) (fname : str) : float :=
  match Dict.get fname (mapping E) with
  | Some (_, conf, _) => conf
  | None => f0_0
  end.

(** C3, amended. Take a record with a non-empty name token, no country
    entry for it, a global entry that is absent or below the threshold
    (the remembered candidate, if any, is then this global entry), and an
    available classifier that answers (gg_g, gg_conf). The block of the
    classifier selects the classifier's answer with source
    "gender-guesser" iff gg_conf >= 0.85 or gg_conf exceeds the
    candidate's confidence (0 without a candidate); otherwise, when the
    candidate exists and its confidence exceeds gg_conf, it selects the
    candidate with source "mapped". What that block selects is the
    decision, unless its label is Unknown and a global entry exists. *)
Theorem fallback_arbitration (E : env) (country fname : str)
    (get_gender : str -> gg_category) :
  fname <> [] ->
  gg E = Some get_gender ->
  Dict.get (country, fname) (mapping_country E) = None ->
  match Dict.get fname (mapping E) with
  | Some (_, conf, _) => ltb conf CONF_THRESHOLD = true
  | None => True
  end ->
  let l3 := step_mapping E country fname locals_init in
  let l4 := step_fallback E fname l3 in
  let gg_g := fst (gg_guess (gg E) fname) in
  let gg_conf := snd (gg_guess (gg E) fname) in
  let use := leb f0_85 gg_conf || ltb (global_conf E fname) gg_conf in
  chosen_gender l3 = Unknown /\
  (forall g c t, Dict.get fname (mapping E) = Some (g, c, t) ->
     leb CONF_THRESHOLD c = false -> cand_g l3 = Some g /\ cand_conf l3 = Some c) /\
  (chosen_source l4 = src_gender_guesser <-> use = true) /\
  (use = true -> chosen_gender l4 = gg_g /\ chosen_conf l4 = gg_conf) /\
  (use = false ->
     forall g c t, Dict.get fname (mapping E) = Some (g, c, t) ->
       ltb gg_conf c = true ->
       chosen_gender l4 = g /\ chosen_conf l4 = c /\ chosen_source l4 = src_mapped) /\
  (chosen_gender l4 <> Unknown \/ Dict.get fname (mapping E) = None ->
     decide E country fname = l4).
Proof.
  intros NE GG NC LOW. apply nonempty_true in NE.
  assert (GG_AVAILABLE (gg E) = true) as AV by (now rewrite GG).
  cbv zeta. unfold decide, step_mapping, global_conf. rewrite NE, NC.
  destruct (Dict.get fname (mapping E)) as [[[g0 c0] t0]|] eqn:G.
  - (* a low global entry *)
    destruct (leb CONF_THRESHOLD c0) eqn:HI.
    { exfalso. exact (leb_ltb_false _ _ HI LOW). }
    unfold step_fallback. cbn [chosen_gender remember locals_init gender_eqb andb].
    rewrite NE, G, LOW, AV. cbn [andb].
    destruct (gg_guess (gg E) fname) as [gg_g gg_conf] eqn:Q. cbn [fst snd].
    split; [reflexivity|].
    split; [intros g c t [= <- <- <-] _; split; reflexivity|].
    destruct (leb f0_85 gg_conf || ltb c0 gg_conf) eqn:U.
    + cbn [chosen_source chosen_gender chosen_conf choose].
      split; [tauto|]. split; [auto|]. split; [discriminate|].
      intros H. apply step_final_decided.
      destruct H as [H|H]; [left; exact H | discriminate].
    + split.
      { destruct (ltb gg_conf c0);
          cbn [chosen_source choose set_cand_conf remember locals_init];
          split; discriminate. }
      split; [discriminate|]. split.
      { intros _ g c t [= <- <- <-] LT. rewrite LT.
        cbn [chosen_source chosen_gender chosen_conf choose]. auto. }
      intros H. apply step_final_decided.
      destruct H as [H|H]; [left; exact H | discriminate].
  - (* no global entry *)
    unfold step_fallback. cbn [chosen_gender locals_init gender_eqb andb].
    rewrite NE, G, AV. cbn [andb].
    destruct (gg_guess (gg E) fname) as [gg_g gg_conf] eqn:Q. cbn [fst snd].
    split; [reflexivity|].
    split; [discriminate|].
    destruct (leb f0_85 gg_conf || ltb f0_0 gg_conf) eqn:U.
    + cbn [chosen_source chosen_gender chosen_conf choose].
      split; [tauto|]. split; [auto|]. split; [discriminate|].
      intros _. apply step_final_decided. right; exact G.
    + cbn [chosen_source set_cand_conf locals_init].
      split; [split; discriminate|].
      split; [discriminate|]. split; [discriminate|].
      intros _. apply step_final_decided. right; exact G.
Qed.

Lemma fallback_arbitration_witness :
  let E := build_env alex_reference (always andy) in
  let country := lit "US" in
  let fname := lit "alex" in
  let l3 := step_mapping E country fname locals_init in
  let l4 := step_fallback E fname l3 in
  let gg_g := fst (gg_guess (gg E) fname) in
  let gg_conf := snd (gg_guess (gg E) fname) in
  let use := leb f0_85 gg_conf || ltb (global_conf E fname) gg_conf in
  chosen_gender l3 = Unknown /\
  (forall g c t, Dict.get fname (mapping E) = Some (g, c, t) ->
     leb CONF_THRESHOLD c = false -> cand_g l3 = Some g /\ cand_conf l3 = Some c) /\
  (chosen_source l4 = src_gender_guesser <-> use = true) /\
  (use = true -> chosen_gender l4 = gg_g /\ chosen_conf l4 = gg_conf) /\
  (use = false ->
     forall g c t, Dict.get fname (mapping E) = Some (g, c, t) ->
       ltb gg_conf c = true ->
       chosen_gender l4 = g /\ chosen_conf l4 = c /\ chosen_source l4 = src_mapped) /\
  (chosen_gender l4 <> Unknown \/ Dict.get fname (mapping E) = None ->
     decide E country fname = l4).
Proof.
  apply (fallback_arbitration (build_env alex_reference (always andy))
           (lit "US") (lit "alex") (fun _ => andy)).
  - discriminate.
  - reflexivity.
  - vm_compute. reflexivity.
  - vm_compute. reflexivity.
Defined.

(* ------------------------------------------------------------------ *)
(** ** The audit *)

(** The counts of the first two items of a list (0 when missing). *)
Definition heads (l : list (gender * N)) : N * N :=
  match l with
  | [] => (0%N, 0%N)
  | (_, a) :: tl => (a, match tl with (_, b) :: _ => b | [] => 0%N end)
  end.

Lemma heads_insert_desc x l :
  heads (insert_desc x l) =
  let '(a, b) := heads l in
  if (snd x <? a)%N then (a, N.max b (snd x)) else (snd x, a).
Proof.
  destruct x as [g c]. destruct l as [|[g1 a] l]; simpl.
  - destruct c; reflexivity.
  - destruct (c <? a)%N eqn:C1; simpl; [|reflexivity].
    destruct l as [|[g2 b] l]; simpl.
    + rewrite N.max_0_l. reflexivity.
    + destruct (c <? b)%N eqn:C2; simpl.
      * apply N.ltb_lt in C2. rewrite N.max_l by lia. reflexivity.
      * apply N.ltb_ge in C2. rewrite N.max_r by lia. reflexivity.
Qed.

Lemma heads_most_common (ctr : counter) :
  heads (most_common ctr) = top_two (Dict.values ctr).
Proof.
  induction ctr as [|x ctr IH]; [reflexivity|].
  change (most_common (x :: ctr)) with (insert_desc x (most_common ctr)).
  rewrite heads_insert_desc, IH. destruct x as [g c]. reflexivity.
Qed.

Lemma length_insert_desc x l : List.length (insert_desc x l) = S (List.length l).
Proof.
  induction l as [|y l IH]; simpl; [reflexivity|].
  destruct (snd x <? snd y)%N; simpl; [now rewrite IH | reflexivity].
Qed.

Lemma length_most_common (ctr : counter) :
  List.length (most_common ctr) = List.length ctr.
Proof.
  induction ctr as [|x ctr IH]; [reflexivity|].
  change (most_common (x :: ctr)) with (insert_desc x (most_common ctr)).
  now rewrite length_insert_desc, IH.
Qed.

Lemma audit_one_name fname ctr a :
  audit_one fname ctr = Some a -> au_first_name a = fname.
Proof.
  unfold audit_one. destruct (total ctr =? 0)%N; [discriminate|].
  destruct (most_common ctr) as [|[g c] tl]; [discriminate|].
  destruct (audit_flag _ _ _ _ _); [|discriminate].
  intros [= <-]. reflexivity.
Qed.

Lemma audit_one_flag fname (ctr : counter) :
  total ctr <> 0%N ->
  ((exists a, audit_one fname ctr = Some a) <->
   audit_flag (total ctr) (fst (top_two (Dict.values ctr)))
     (snd (top_two (Dict.values ctr)))
     (truediv (fst (top_two (Dict.values ctr))) (total ctr))
     (List.length ctr) = true).
Proof.
  intros T. unfold audit_one.
  replace (total ctr =? 0)%N with false by (symmetry; now apply N.eqb_neq).
  rewrite <- heads_most_common, <- (length_most_common ctr).
  destruct (most_common ctr) as [|[g c] tl] eqn:Em.
  - exfalso. pose proof (length_most_common ctr) as L. rewrite Em in L.
    destruct ctr; [now apply T | discriminate].
  - cbn [heads fst snd].
    destruct (audit_flag _ _ _ _ _).
    + split; [reflexivity | intros _; eexists; reflexivity].
    + split; [intros [a H]; discriminate | discriminate].
Qed.

Lemma audit_In (cg : counts) a :
  In a (audit cg) <->
  exists ctr, In (au_first_name a, ctr) cg /\ audit_one (au_first_name a) ctr = Some a.
Proof.
  induction cg as [|[f c] cg IH]; simpl.
  - split; [tauto | intros (ctr & [] & _)].
  - destruct (audit_one f c) as [a0|] eqn:A.
    + simpl. rewrite IH. split.
      * intros [<-|(ctr & I & H)].
        -- exists c. rewrite (audit_one_name _ _ _ A). auto.
        -- exists ctr; auto.
      * intros (ctr & [I|I] & H).
        -- injection I as E1 E2. rewrite <- E1, <- E2 in H. left. congruence.
        -- right. exists ctr; auto.
    + rewrite IH. split.
      * intros (ctr & I & H). exists ctr; auto.
      * intros (ctr & [I|I] & H).
        -- injection I as E1 E2. rewrite <- E1, <- E2 in H. congruence.
        -- exists ctr; auto.
Qed.

Lemma audit_flag_true total top second conf labels :
  audit_flag total top second conf labels = true <->
  (total < 50)%N \/ ltb conf f0_7 = true \/
  (2 <= labels /\ (Z.of_N top - Z.of_N second < 3)%Z).
Proof.
  unfold audit_flag.
  rewrite !orb_true_iff, andb_true_iff, N.ltb_lt, Nat.ltb_lt, Z.ltb_lt.
  unfold lt. tauto.
Qed.

(** Every counter built by the reference pass has distinct labels. *)
Definition counters_wf (cg : counts) : Prop :=
  forall f ctr, In (f, ctr) cg -> Dict.wf ctr.

Lemma counters_wf_bump fname g cg :
  Dict.wf cg -> counters_wf cg -> counters_wf (bump fname g cg).
Proof.
  intros W C f ctr I. unfold bump in I. apply In_set_laws in I.
  destruct I as [I|I]; [|now apply (C f)].
  injection I as -> ->. apply wf_set.
  destruct (Dict.get fname cg) as [c0|] eqn:G; [|apply wf_nil].
  apply get_In in G. now apply (C fname).
Qed.

Lemma counters_wf_aggregate reference :
  counters_wf (counts_global (aggregate reference)).
Proof.
  assert (forall rows st,
            Dict.wf (counts_global st) -> counters_wf (counts_global st) ->
            Dict.wf (counts_global (fold_left ref_step rows st)) /\
            counters_wf (counts_global (fold_left ref_step rows st))) as F.
  { induction rows as [|r rows IH]; intros st W C; simpl; [auto|].
    apply IH; unfold ref_step;
      destruct (negb (nonempty r)); try assumption;
      destruct (negb (nonempty _)); try assumption; simpl.
    - now apply wf_set.
    - now apply counters_wf_bump. }
  assert (counters_wf (@nil (str * counter))) as C0 by (intros f ctr []).
  destruct reference as [|first_row rest]; simpl; [assumption|].
  apply F; unfold read_first_row;
    destruct (negb (nonempty first_row)); try assumption; try apply wf_nil;
    destruct (Str.mem _ _); simpl; try assumption; try apply wf_nil;
    destruct (nonempty _); simpl; try assumption; try apply wf_nil.
  - apply wf_set, wf_nil.
  - apply counters_wf_bump; [apply wf_nil | assumption].
Qed.

(** C7. For every name of the reference file, with counter [ctr] of
    positive total: the name is written to the audit iff the total is
    below 50, or top/total is below 0.7, or the counter has at least two
    (distinct) labels and its two largest counts differ by less than 3.
    Counts {M:1, F:1} are flagged; counts {M:1000, F:2} are not. *)
Theorem audit_flag_rule (reference : list row) (fname : str) (ctr : counter) :
  Dict.get fname (counts_global (aggregate reference)) = Some ctr ->
  (0 < total ctr)%N ->
  let top := fst (top_two (Dict.values ctr)) in
  let second := snd (top_two (Dict.values ctr)) in
  NoDup (Dict.keys ctr) /\
  ((exists a, In a (audit (counts_global (aggregate reference))) /\
              au_first_name a = fname) <->
   ((total ctr < 50)%N \/ ltb (truediv top (total ctr)) f0_7 = true \/
    (2 <= List.length (Dict.keys ctr) /\ (Z.of_N top - Z.of_N second < 3)%Z))) /\
  (exists a, audit [(fname, [(M, 1%N); (F, 1%N)])] = [a]) /\
  audit [(fname, [(M, 1000%N); (F, 2%N)])] = [].
Proof.
  intros G T. cbv zeta.
  destruct (agg_inv_aggregate reference) as [W _].
  pose proof G as I. apply get_In in I.
  split; [exact (counters_wf_aggregate reference fname ctr I)|].
  split; [|split; [eexists|]; vm_compute; reflexivity].
  unfold Dict.keys. rewrite length_map.
  rewrite <- audit_flag_true, <- (audit_one_flag fname ctr) by lia.
  split.
  - intros (a & Ia & <-). apply audit_In in Ia. destruct Ia as (ctr' & I' & H).
    apply In_get in I'; [|exact W]. rewrite G in I'. injection I' as <-.
    exists a; exact H.
  - intros (a & H). exists a. pose proof (audit_one_name _ _ _ H) as Na.
    split; [|exact Na]. apply audit_In. exists ctr. rewrite Na. auto.
Qed.

Lemma audit_flag_rule_witness :
  let ctr := [(M, 1%N); (F, 2%N)] in
  let top := fst (top_two (Dict.values ctr)) in
  let second := snd (top_two (Dict.values ctr)) in
  NoDup (Dict.keys ctr) /\
  ((exists a, In a (audit (counts_global (aggregate alex_reference))) /\
              au_first_name a = lit "alex") <->
   ((total ctr < 50)%N \/ ltb (truediv top (total ctr)) f0_7 = true \/
    (2 <= List.length (Dict.keys ctr) /\ (Z.of_N top - Z.of_N second < 3)%Z))) /\
  (exists a, audit [(lit "alex", [(M, 1%N); (F, 1%N)])] = [a]) /\
  audit [(lit "alex", [(M, 1000%N); (F, 2%N)])] = [].
Proof.
  apply (audit_flag_rule alex_reference (lit "alex") [(M, 1%N); (F, 2%N)]).
  - vm_compute. reflexivity.
  - vm_compute. reflexivity.
Defined.

(* ================================================================== *)
(** * Further properties of the code *)

(* ------------------------------------------------------------------ *)
(** ** [detect_delimiter] *)

Lemma max_by_spec {A : Type} (key : A -> N) (items : list A) : forall best,
  exists l1 l2,
    best :: items = l1 ++ max_by key best items :: l2 /\
    (forall x, In x l1 -> (key x < key (max_by key best items))%N) /\
    (forall x, In x l2 -> (key x <= key (max_by key best items))%N).
Proof.
  induction items as [|x items IH]; intros best; cbn [max_by].
  - exists [], []. simpl. repeat split; tauto.
  - destruct (key best <? key x)%N eqn:C.
    + apply N.ltb_lt in C.
      destruct (IH x) as (l1 & l2 & E & A1 & B1).
      assert (key x <= key (max_by key x items))%N as Hx.
      { destruct l1 as [|z l1]; simpl in E; injection E as Ex _.
        - rewrite <- Ex. lia.
        - subst z. specialize (A1 x (or_introl eq_refl)). lia. }
      exists (best :: l1), l2. split; [simpl; now rewrite <- E|].
      split; [|assumption].
      intros y [<-|Hy]; [lia | now apply A1].
    + apply N.ltb_ge in C.
      destruct (IH best) as (l1 & l2 & E & A1 & B1).
      destruct l1 as [|z l1]; simpl in E; injection E as Eb El.
      * exists [], (x :: l2). split; [simpl; now rewrite <- Eb, <- El|].
        split; [intros y []|].
        intros y [<-|Hy]; [rewrite <- Eb; lia|].
        apply B1. exact Hy.
      * subst z. exists (best :: x :: l1), l2.
        split; [simpl; now rewrite <- El|]. split; [|assumption].
        intros y [<-|[<-|Hy]].
        -- apply A1; left; reflexivity.
        -- specialize (A1 best (or_introl eq_refl)). lia.
        -- apply A1; right; exact Hy.
Qed.

Lemma count_char_absent (c : char) (sample : str) :
  ~ In c sample -> count_char c sample = 0%N.
Proof.
  induction sample as [|x rest IH]; simpl; [reflexivity|].
  intros H. rewrite IH by tauto.
  destruct (N.eqb_spec x c); [exfalso; apply H; auto | reflexivity].
Qed.

(** X1. The delimiter is one of the four candidates; no candidate occurs
    more often in the first 8192 characters; a candidate listed before it
    (comma, tab, semicolon, bar) occurs strictly less often, so ties go to
    the earliest candidate and a text without any candidate gets the
    comma; the text after the first 8192 characters plays no part. *)
Theorem detect_delimiter_spec (content : str) :
  let d := detect_delimiter content in
  let cnt := fun c => count_char c (firstn sample_size content) in
  (exists l1 l2,
     candidates = l1 ++ d :: l2 /\
     (forall c, In c l1 -> (cnt c < cnt d)%N) /\
     (forall c, In c l2 -> (cnt c <= cnt d)%N)) /\
  ((forall c, In c candidates -> ~ In c (firstn sample_size content)) -> d = 44%N) /\
  (forall more, sample_size <= List.length content ->
     detect_delimiter (content ++ more) = d).
Proof.
  cbv zeta. split; [|split].
  - unfold detect_delimiter, candidates.
    apply (max_by_spec (fun c => count_char c (firstn sample_size content))
             [9; 59; 124]%N 44%N).
  - intros H. unfold detect_delimiter. cbn [max_by].
    rewrite !count_char_absent by (apply H; unfold candidates; simpl; tauto).
    reflexivity.
  - intros more L. unfold detect_delimiter.
    rewrite firstn_app.
    replace (sample_size - List.length content) with 0 by lia.
    cbn [firstn]. now rewrite app_nil_r.
Qed.

(* ------------------------------------------------------------------ *)
(** ** [normalize_gender] *)

Lemma lower_char_is (c : char) (x : N) :
  (97 <= x <= 122)%N ->
  (lower_char c = x <-> c = x \/ c = (x - 32)%N).
Proof.
  intros Hx. unfold lower_char.
  destruct ((65 <=? c) && (c <=? 90))%N eqn:A.
  - apply andb_true_iff in A. destruct A as [A1 A2].
    apply N.leb_le in A1, A2. lia.
  - destruct ((192 <=? c) && (c <=? 222) && negb (c =? 215))%N eqn:B.
    + apply andb_true_iff in B. destruct B as [B _].
      apply andb_true_iff in B. destruct B as [B1 B2].
      apply N.leb_le in B1, B2. lia.
    + apply andb_false_iff in A. destruct A as [A|A].
      * apply N.leb_gt in A. lia.
      * apply N.leb_gt in A. lia.
Qed.

Lemma startswith_one (x : char) (s : str) :
  startswith [x] s = true <-> exists rest, s = x :: rest.
Proof.
  destruct s as [|y s]; simpl.
  - split; [discriminate | intros (r & H); discriminate].
  - rewrite andb_true_r, N.eqb_eq. split.
    + intros ->. now exists s.
    + intros (r & [= -> _]). reflexivity.
Qed.

Lemma normalize_gender_cases (g : str) :
  normalize_gender g =
  match strip g with
  | c :: _ =>
      if (lower_char c =? 109)%N then M
      else if (lower_char c =? 102)%N then F else Unknown
  | [] => Unknown
  end.
Proof.
  unfold normalize_gender.
  destruct g as [|c0 g0]; [reflexivity|]. cbn [nonempty negb].
  destruct (strip (c0 :: g0)) as [|c rest]; [reflexivity|].
  change (lit "m") with [109%N]. change (lit "f") with [102%N].
  cbn [lower List.map startswith Str.eqb].
  rewrite !andb_true_r.
  rewrite (N.eqb_sym 109), (N.eqb_sym 102).
  destruct (lower_char c =? 109)%N.
  - rewrite orb_true_r. reflexivity.
  - destruct (lower_char c =? 102)%N.
    + rewrite andb_false_l, orb_true_r. reflexivity.
    + rewrite !andb_false_l. reflexivity.
Qed.

(** X2. [normalize_gender] looks only at the first character that is
    left after trimming: the result is 'M' exactly when it is m or M, 'F'
    exactly when it is f or F, and 'Unknown' otherwise (also for an empty
    or blank value). The three labels are fixed points. *)
Theorem normalize_gender_first_letter (g : str) :
  (normalize_gender g = M <->
     exists c rest, strip g = c :: rest /\ (c = 109 \/ c = 77)%N) /\
  (normalize_gender g = F <->
     exists c rest, strip g = c :: rest /\ (c = 102 \/ c = 70)%N) /\
  (strip g = [] -> normalize_gender g = Unknown) /\
  normalize_gender (gender_str (normalize_gender g)) = normalize_gender g.
Proof.
  rewrite normalize_gender_cases.
  split; [|split; [|split]].
  - destruct (strip g) as [|c rest].
    + split; [discriminate | intros (c & r & H & _); discriminate].
    + pose proof (lower_char_is c 109 ltac:(lia)) as L. cbn in L.
      destruct (N.eqb_spec (lower_char c) 109) as [E|E].
      * split; [intros _; exists c, rest; tauto | reflexivity].
      * split.
        -- destruct (lower_char c =? 102)%N; discriminate.
        -- intros (c' & r & [= <- _] & H). tauto.
  - destruct (strip g) as [|c rest].
    + split; [discriminate | intros (c & r & H & _); discriminate].
    + pose proof (lower_char_is c 102 ltac:(lia)) as L. cbn in L.
      pose proof (lower_char_is c 109 ltac:(lia)) as L'. cbn in L'.
      destruct (N.eqb_spec (lower_char c) 109) as [E|E].
      * split; [discriminate|]. intros (c' & r & [= <- _] & H).
        assert (lower_char c = 102%N) by tauto. congruence.
      * destruct (N.eqb_spec (lower_char c) 102) as [E2|E2].
        -- split; [intros _; exists c, rest; tauto | reflexivity].
        -- split; [discriminate|]. intros (c' & r & [= <- _] & H). tauto.
  - intros ->. reflexivity.
  - destruct (strip g) as [|c rest]; [reflexivity|].
    destruct (lower_char c =? 109)%N; [reflexivity|].
    destruct (lower_char c =? 102)%N; reflexivity.
Qed.

(* ------------------------------------------------------------------ *)
(** ** [gg_guess] *)

(** X4. The classifier wrapper answers a label other than 'Unknown'
    exactly when its confidence is at least 0.85; its confidence is one of
    0.0, 0.5, 0.85 and 1.0; and it answers ('Unknown', 0.0) when the
    library is missing or the name is empty. *)
Theorem gg_guess_label_confidence (gg : detector) (first : str) :
  (fst (gg_guess gg first) <> Unknown <->
     leb f0_85 (snd (gg_guess gg first)) = true) /\
  In (snd (gg_guess gg first)) [f0_0; f0_5; f0_85; f1_0] /\
  (GG_AVAILABLE gg = false \/ first = [] ->
     gg_guess gg first = (Unknown, f0_0)).
Proof.
  assert (forall c, In c [f0_0; f0_5] ->
            (Unknown <> Unknown <-> leb f0_85 c = true)) as U.
  { intros c [<-|[<-|[]]];
      (split; [intros H; now elim H | intros H; vm_compute in H; discriminate]). }
  assert (forall g c, g <> Unknown -> In c [f0_85; f1_0] ->
            (g <> Unknown <-> leb f0_85 c = true)) as D.
  { intros g c Hg [<-|[<-|[]]];
      (split; [intros _; vm_compute; reflexivity | intros _; exact Hg]). }
  unfold gg_guess, GG_AVAILABLE.
  destruct gg as [get_gender|].
  - destruct first as [|c first]; cbn [nonempty negb].
    + cbn [fst snd]. split; [apply U; simpl; tauto|].
      split; [simpl; tauto | reflexivity].
    + destruct (get_gender (c :: first)); cbn [fst snd];
        (split; [first [apply U; simpl; tauto
                       | apply D; [discriminate | simpl; tauto]]|]);
        (split; [simpl; tauto | intros [H|H]; discriminate]).
  - cbn [fst snd]. split; [apply U; simpl; tauto|].
    split; [simpl; tauto | reflexivity].
Qed.

(* ------------------------------------------------------------------ *)
(** ** [get_first_name] *)

Lemma split_aux_tokens (s : str) : forall cur,
  (forall c, In c cur -> isspace c = false) ->
  forall t, In t (split_aux cur s) ->
    t <> [] /\ forall c, In c t -> isspace c = false /\ (In c cur \/ In c s).
Proof.
  induction s as [|x s IH]; intros cur Hcur t; cbn [split_aux].
  - destruct cur as [|y cur]; [intros []|].
    intros [<-|[]]. split.
    + intros H. apply (f_equal (@List.length char)) in H.
      rewrite length_rev in H. discriminate.
    + intros c Hc. apply in_rev in Hc. split; [now apply Hcur | now left].
  - destruct (isspace x) eqn:Sx.
    + assert (forall t, In t (split_aux [] s) ->
                t <> [] /\ forall c, In c t -> isspace c = false /\ (In c cur \/ In c (x :: s)))
        as Rest.
      { intros t' Ht'. destruct (IH [] (fun c (H : In c []) => match H with end) t' Ht')
          as [N A]. split; [assumption|].
        intros c Hc. destruct (A c Hc) as [A1 [[]|A2]]. split; [assumption|].
        right; right; assumption. }
      destruct cur as [|y cur]; [apply Rest|].
      intros [<-|Ht]; [|now apply Rest].
      split.
      * intros H. apply (f_equal (@List.length char)) in H.
        rewrite length_rev in H. discriminate.
      * intros c Hc. apply in_rev in Hc. split; [now apply Hcur | now left].
    + intros Ht.
      assert (forall c, In c (x :: cur) -> isspace c = false) as Hcur'
        by (intros c [<-|Hc]; [assumption | now apply Hcur]).
      destruct (IH (x :: cur) Hcur' t Ht) as [N A]. split; [assumption|].
      intros c Hc. destruct (A c Hc) as [A1 [[<-|A2]|A2]]; split; auto.
      * right; left; reflexivity.
      * right; right; assumption.
Qed.

Lemma split_tokens (s : str) (t : str) :
  In t (split s) -> t <> [] /\ forall c, In c t -> isspace c = false /\ In c s.
Proof.
  intros H.
  destruct (split_aux_tokens s [] (fun c (H : In c []) => match H with end) t H)
    as [N A].
  split; [assumption|]. intros c Hc. destruct (A c Hc) as [A1 [[]|A2]]. auto.
Qed.

Lemma split_aux_nospace (s : str) : forall cur,
  (forall c, In c s -> isspace c = false) ->
  split_aux cur s = match rev cur ++ s with [] => [] | t => [t] end.
Proof.
  induction s as [|x s IH]; intros cur Hs; cbn [split_aux].
  - rewrite app_nil_r. destruct cur as [|y cur]; [reflexivity|].
    destruct (rev (y :: cur)) eqn:R; [|reflexivity].
    apply (f_equal (@List.length char)) in R. rewrite length_rev in R. discriminate.
  - rewrite (Hs x (or_introl eq_refl)).
    rewrite IH by (intros c Hc; apply Hs; now right).
    cbn [rev]. now rewrite <- app_assoc.
Qed.

Lemma lstrip_nospace (s : str) :
  (forall c, In c s -> isspace c = false) -> lstrip s = s.
Proof.
  destruct s as [|x s]; [reflexivity|]. intros H. cbn [lstrip].
  now rewrite (H x (or_introl eq_refl)).
Qed.

Lemma strip_nospace (s : str) :
  (forall c, In c s -> isspace c = false) -> strip s = s.
Proof.
  intros H. unfold strip, rstrip. rewrite (lstrip_nospace s H).
  rewrite lstrip_nospace by (intros c Hc; apply H; now apply in_rev).
  apply rev_involutive.
Qed.

Lemma filter_all {A : Type} (f : A -> bool) (l : list A) :
  (forall x, In x l -> f x = true) -> filter f l = l.
Proof.
  induction l as [|x l IH]; intros H; simpl; [reflexivity|].
  rewrite (H x (or_introl eq_refl)), IH; [reflexivity|].
  intros y Hy. apply H. now right.
Qed.

Lemma map_id_on {A : Type} (f : A -> A) (l : list A) :
  (forall x, In x l -> f x = x) -> List.map f l = l.
Proof.
  induction l as [|x l IH]; intros H; simpl; [reflexivity|].
  rewrite (H x (or_introl eq_refl)), IH; [reflexivity|].
  intros y Hy. apply H. now right.
Qed.

(** The code points 0..255. *)
Definition latin1 : list N := List.map N.of_nat (seq 0 256).

Lemma latin1_In (c : N) : (c <= 255)%N -> In c latin1.
Proof.
  intros H. unfold latin1. rewrite <- (N2Nat.id c).
  apply in_map, in_seq. lia.
Qed.

Lemma valid_nospace_latin1 (c : char) :
  valid_char c = true -> isspace c = false -> (c <= 255)%N.
Proof.
  unfold valid_char. intros V S. rewrite S, orb_false_r in V.
  rewrite !orb_true_iff, !andb_true_iff, !N.leb_le, !N.eqb_eq in V. lia.
Qed.

(** What lower-casing does to a kept character that is not a space. *)
Definition kept_char_ok (c : char) : bool :=
  implb (valid_char c && negb (isspace c))
    (valid_char (lower_char c) && negb (isspace (lower_char c))
     && N.eqb (lower_char (lower_char c)) (lower_char c)).

Lemma kept_chars_checked : forallb kept_char_ok latin1 = true.
Proof. vm_compute. reflexivity. Qed.

Lemma lower_char_kept (c : char) :
  valid_char c = true -> isspace c = false ->
  valid_char (lower_char c) = true /\ isspace (lower_char c) = false /\
  lower_char (lower_char c) = lower_char c.
Proof.
  intros V S.
  pose proof (proj1 (forallb_forall kept_char_ok latin1) kept_chars_checked c
                (latin1_In c (valid_nospace_latin1 c V S))) as K.
  unfold kept_char_ok in K. rewrite V, S in K. cbn [negb andb implb] in K.
  apply andb_true_iff in K. destruct K as [K K3].
  apply andb_true_iff in K. destruct K as [K1 K2].
  apply N.eqb_eq in K3. apply negb_true_iff in K2. auto.
Qed.

(** The token is empty, or the lower-cased form of a token of at least
    two kept, non-space characters. *)
Lemma get_first_name_shape (full_name : str) :
  get_first_name full_name = [] \/
  exists t, get_first_name full_name = lower t /\ 2 <= List.length t /\
    forall c, In c t -> valid_char c = true /\ isspace c = false.
Proof.
  unfold get_first_name.
  destruct (negb (nonempty full_name)); [now left|].
  set (s := filter valid_char (strip full_name)).
  assert (forall t, In t (filter nonempty (split s)) ->
            t <> [] /\ forall c, In c t -> valid_char c = true /\ isspace c = false)
    as Tok.
  { intros t Ht. apply filter_In in Ht. destruct Ht as [Ht _].
    destruct (split_tokens s t Ht) as [N A]. split; [assumption|].
    intros c Hc. destruct (A c Hc) as [A1 A2].
    unfold s in A2. apply filter_In in A2. tauto. }
  destruct (filter nonempty (split s)) as [|t0 rest]; [now left|].
  destruct (Nat.eqb (List.length t0) 1) eqn:L0.
  - destruct rest as [|t1 rest]; [now left|].
    destruct (Nat.ltb 1 (List.length t1)) eqn:L1; [|now left].
    right. exists t1. apply Nat.ltb_lt in L1.
    split; [reflexivity|]. split; [lia|].
    apply Tok. right; left; reflexivity.
  - right. exists t0. apply Nat.eqb_neq in L0.
    destruct (Tok t0 (or_introl eq_refl)) as [N A].
    split; [reflexivity|]. split; [|assumption].
    destruct t0 as [|a [|b t0]]; simpl in *; [congruence | lia | lia].
Qed.

(** X3. The first-name token is never a single character; it contains
    only kept characters (letters, apostrophe, hyphen), none of them a
    space, all in lower case; and it is its own token:
    [get_first_name] applied to a token returns it. *)
Theorem get_first_name_token (full_name : str) :
  let t := get_first_name full_name in
  List.length t <> 1 /\
  (forall c, In c t ->
     valid_char c = true /\ isspace c = false /\ lower_char c = c) /\
  get_first_name t = t.
Proof.
  cbv zeta.
  destruct (get_first_name_shape full_name) as [->|(t & -> & L & A)].
  - split; [discriminate|]. split; [intros c []| reflexivity].
  - assert (forall c, In c (lower t) ->
              valid_char c = true /\ isspace c = false /\ lower_char c = c) as B.
    { intros c Hc. unfold lower in Hc. apply in_map_iff in Hc.
      destruct Hc as (c0 & <- & Hc0). destruct (A c0 Hc0) as [V S].
      apply (lower_char_kept c0 V S). }
    assert (List.length (lower t) = List.length t) as Len
      by (unfold lower; apply length_map).
    split; [lia|]. split; [exact B|].
    set (u := lower t) in *.
    assert (nonempty u = true) as NEu by (destruct u; [simpl in Len; lia | reflexivity]).
    assert (strip u = u) as Hs by (apply strip_nospace; intros c Hc; now apply B).
    assert (filter valid_char u = u) as Hf
      by (apply filter_all; intros c Hc; now apply B).
    assert (split u = [u]) as Hsp.
    { unfold split. rewrite split_aux_nospace by (intros c Hc; now apply B).
      cbn [rev app]. destruct u; [discriminate | reflexivity]. }
    unfold get_first_name. rewrite NEu. cbn [negb].
    rewrite Hs, Hf, Hsp. cbn [filter]. rewrite NEu.
    replace (Nat.eqb (List.length u) 1) with false
      by (symmetry; apply Nat.eqb_neq; lia).
    apply map_id_on. intros c Hc. now apply B.
Qed.

(* ------------------------------------------------------------------ *)
(** ** The reference pass counts rows *)

(** Every counted name is non-empty and every counter has a positive
    total. *)
Definition counts_pos (cg : counts) : Prop :=
  forall f ctr, In (f, ctr) cg -> f <> [] /\ (0 < total ctr)%N.

Lemma counts_pos_bump fname g cg :
  fname <> [] -> counts_pos cg -> counts_pos (bump fname g cg).
Proof.
  intros NE C f ctr I. unfold bump in I. apply In_set_laws in I.
  destruct I as [I|I]; [|now apply C].
  injection I as -> ->. split; [assumption|]. rewrite total_incr. lia.
Qed.

Lemma counts_pos_ref_step st r :
  counts_pos (counts_global st) -> counts_pos (counts_global (ref_step st r)).
Proof.
  intros C. unfold ref_step.
  destruct (negb (nonempty r)); [assumption|].
  destruct (nonempty (get_first_name (field (name_idx st) r))) eqn:NE;
    cbn [negb]; [|assumption].
  cbn [counts_global]. apply counts_pos_bump; [|assumption].
  now apply nonempty_true.
Qed.

Lemma counts_pos_aggregate reference :
  counts_pos (counts_global (aggregate reference)).
Proof.
  assert (forall rows st, counts_pos (counts_global st) ->
            counts_pos (counts_global (fold_left ref_step rows st))) as Fold.
  { induction rows as [|r rows IH]; intros st C; simpl; [assumption|].
    apply IH. now apply counts_pos_ref_step. }
  assert (counts_pos (@nil (str * counter))) as C0 by (intros f ctr []).
  destruct reference as [|first_row rest]; simpl; [assumption|].
  apply Fold. unfold read_first_row.
  destruct (negb (nonempty first_row)); [assumption|].
  destruct (Str.mem _ _); [assumption|].
  destruct (nonempty (get_first_name _)) eqn:NE; [|assumption].
  cbn [counts_global]. apply counts_pos_bump; [|assumption].
  now apply nonempty_true.
Qed.

(** X5. The global mapping has exactly the names that were counted: a
    counted name is never empty, has a positive total and gets an entry
    with that total; a name that was not counted has no entry. *)
Theorem mapping_domain (reference : list row) (gg : detector) (f : str) :
  match Dict.get f (counts_global (aggregate reference)) with
  | Some ctr =>
      f <> [] /\ (1 <= total ctr)%N /\
      exists e, Dict.get f (mapping (build_env reference gg)) = Some e /\
                entry_total e = total ctr
  | None => Dict.get f (mapping (build_env reference gg)) = None
  end.
Proof.
  cbn [build_env mapping].
  destruct (agg_inv_aggregate reference) as [W _].
  rewrite build_mapping_get by assumption.
  destruct (Dict.get f (counts_global (aggregate reference))) as [ctr|] eqn:G;
    [|reflexivity].
  apply get_In in G. destruct (counts_pos_aggregate reference f ctr G) as [NE P].
  split; [assumption|]. split; [lia|].
  assert (total ctr <> 0%N) as NZ by lia.
  destruct (country_entry_some ctr NZ) as (e & Ge & Te).
  exists e. now rewrite global_entry_country_entry.
Qed.

(** The rows that count for the name [f] with label [g], given the two
    column indices. *)
Definition row_matches (ni gi : nat) (f : str) (g : gender) (r : row) : bool :=
  Str.eqb (get_first_name (field ni r)) f
  && gender_eqb (normalize_gender (field gi r)) g.

(** The count stored for the name [f] and the label [g] (0 when
    missing). *)
Definition label_count (f : str) (g : gender) (cg : counts) : N :=
  match Dict.get f cg with
  | Some ctr => count_of g ctr
  | None => 0%N
  end.

Lemma count_of_incr g' g (ctr : counter) :
  count_of g (incr g' ctr) =
  (count_of g ctr + if gender_eqb g' g then 1 else 0)%N.
Proof.
  unfold count_of, incr. rewrite get_set.
  change (eqb_key g' g) with (gender_eqb g' g).
  destruct (gender_eqb g' g) eqn:E; [|lia].
  apply gender_eqb_spec in E; subst g'. reflexivity.
Qed.

Lemma label_count_bump fname g' f g (cg : counts) :
  label_count f g (bump fname g' cg) =
  (label_count f g cg + if Str.eqb fname f && gender_eqb g' g then 1 else 0)%N.
Proof.
  unfold label_count. rewrite bump_get.
  change (eqb_key fname f) with (Str.eqb fname f).
  destruct (Str.eqb fname f) eqn:E; cbn [andb].
  - apply str_eqb_spec in E; subst fname. rewrite count_of_incr.
    destruct (Dict.get f cg); reflexivity.
  - destruct (Dict.get f cg); lia.
Qed.

Lemma label_count_ref_step st r f g :
  f <> [] ->
  label_count f g (counts_global (ref_step st r)) =
  (label_count f g (counts_global st)
   + if row_matches (name_idx st) (gender_idx st) f g r then 1 else 0)%N.
Proof.
  intros NE. unfold ref_step, row_matches.
  assert (Str.eqb [] f = false) as E0 by (destruct f; [congruence | reflexivity]).
  destruct r as [|x r]; cbn [nonempty negb].
  - unfold field. destruct (name_idx st); cbn [nth];
      change (get_first_name []) with (@nil char); rewrite E0; cbn [andb]; lia.
  - set (r' := x :: r).
    destruct (get_first_name (field (name_idx st) r')) as [|c fname] eqn:Ef;
      cbn [nonempty negb].
    + rewrite E0. cbn [andb]. lia.
    + cbn [counts_global]. apply label_count_bump.
Qed.

Lemma ref_step_indices st r :
  name_idx (ref_step st r) = name_idx st /\
  gender_idx (ref_step st r) = gender_idx st.
Proof.
  unfold ref_step. destruct (negb (nonempty r)); [auto|].
  destruct (negb (nonempty _)); auto.
Qed.

Lemma label_count_fold rows f g : forall st,
  f <> [] ->
  label_count f g (counts_global (fold_left ref_step rows st)) =
  (label_count f g (counts_global st)
   + N.of_nat (List.length
                 (filter (row_matches (name_idx st) (gender_idx st) f g) rows)))%N.
Proof.
  induction rows as [|r rows IH]; intros st NE; cbn [fold_left filter].
  - cbn. lia.
  - rewrite IH by assumption. rewrite (label_count_ref_step st r f g NE).
    destruct (ref_step_indices st r) as [-> ->].
    destruct (row_matches (name_idx st) (gender_idx st) f g r); cbn [List.length]; lia.
Qed.

(** X6. Counting. For a non-empty name [f] and a label [g], the count
    stored after the reference pass is the number of rows whose name
    field gives the token [f] and whose gender field normalizes to [g]:
    over the rows after the header, with the header's column indices,
    when the first row has a [name] cell; over all rows, with columns 0
    and 1, when it has none. *)
Theorem label_count_is_row_count (first_row : row) (rest : list row)
    (f : str) (g : gender) :
  f <> [] ->
  let st0 := read_first_row first_row ref_init in
  let cg := counts_global (aggregate (first_row :: rest)) in
  let has_name :=
    Str.mem (lit "name") (List.map (fun c => lower (strip c)) first_row) in
  (has_name = true ->
     label_count f g cg =
     N.of_nat (List.length
                 (filter (row_matches (name_idx st0) (gender_idx st0) f g) rest))) /\
  (has_name = false ->
     label_count f g cg =
     N.of_nat (List.length (filter (row_matches 0 1 f g) (first_row :: rest)))).
Proof.
  intros NE. cbv zeta. cbn [aggregate].
  rewrite (label_count_fold rest f g _ NE).
  assert (Str.eqb [] f = false) as E0 by (destruct f; [congruence | reflexivity]).
  unfold read_first_row.
  destruct first_row as [|x first_row]; cbn [nonempty negb].
  - split; [discriminate|]. intros _. cbn [ref_init name_idx gender_idx counts_global].
    cbn [filter]. unfold row_matches at 2. unfold field. cbn [nth].
    change (get_first_name []) with (@nil char). rewrite E0. cbn [andb].
    cbn. reflexivity.
  - set (r := x :: first_row).
    destruct (Str.mem (lit "name") (List.map (fun c => lower (strip c)) r)).
    + split; [|discriminate]. intros _. cbn [counts_global name_idx gender_idx ref_init].
      cbn. reflexivity.
    + split; [discriminate|]. intros _.
      cbn [ref_init name_idx gender_idx counts_global].
      cbn [filter]. unfold row_matches at 2.
      destruct (get_first_name (field 0 r)) as [|c fname] eqn:Ef; cbn [nonempty].
      * rewrite E0. cbn [andb name_idx gender_idx counts_global]. cbn. reflexivity.
      * cbn [name_idx gender_idx counts_global].
        rewrite label_count_bump. cbn [label_count Dict.get].
        destruct (Str.eqb (c :: fname) f && _); cbn [List.length]; lia.
Qed.

Lemma label_count_is_row_count_witness :
  label_count (lit "alex") F (counts_global (aggregate alex_reference)) =
  N.of_nat (List.length (filter (row_matches 0 1 (lit "alex") F) alex_reference)).
Proof.
  apply (label_count_is_row_count [lit "Alex"; lit "M"]
           [[lit "Alex"; lit "F"]; [lit "Alex"; lit "F"]] (lit "alex") F).
  - discriminate.
  - vm_compute. reflexivity.
Defined.

(* ------------------------------------------------------------------ *)
(** ** Confidence: unanimous names and small samples *)

Lemma truediv_same (p : positive) : truediv (Npos p) (Npos p) = f1_0.
Proof.
  unfold truediv, of_int, SFdiv.
  destruct (SFdiv_core_le (Pos.le_refl p)) as (e & q & l & Ec & He & Hq & Heq).
  rewrite Ec. destruct (Heq eq_refl) as [-> ->].
  assert (q = 2 ^ 53)%Z as ->.
  { rewrite Hq, Z.mul_comm. apply Z.div_mul. lia. }
  vm_compute. reflexivity.
Qed.

(** X7. A name observed with one label only has confidence exactly 1.0,
    however few its rows (the penalty spares a confidence of 1.0), and
    1.0 passes the threshold. *)
Theorem unanimous_confidence (g : gender) (n : N) :
  (0 < n)%N ->
  global_entry [(g, n)] = Some (g, f1_0, n) /\
  country_entry [(g, n)] = Some (g, f1_0, n) /\
  leb CONF_THRESHOLD f1_0 = true.
Proof.
  intros P. rewrite global_entry_country_entry.
  assert (country_entry [(g, n)] = Some (g, f1_0, n)) as H.
  { unfold country_entry. change (total [(g, n)]) with (n + 0)%N.
    rewrite N.add_0_r.
    replace (n =? 0)%N with false by (symmetry; apply N.eqb_neq; lia).
    cbn [most_common_1 first_max].
    destruct n as [|p]; [lia|]. rewrite truediv_same.
    unfold penalize. replace (ltb f1_0 f1_0) with false by reflexivity.
    now rewrite andb_false_r. }
  split; [exact H | split; [exact H | reflexivity]].
Qed.

Lemma unanimous_confidence_witness :
  global_entry [(F, 1%N)] = Some (F, f1_0, 1%N) /\
  country_entry [(F, 1%N)] = Some (F, f1_0, 1%N) /\
  leb CONF_THRESHOLD f1_0 = true.
Proof. apply (unanimous_confidence F 1). reflexivity. Defined.

Lemma small_confidence (top_count total : N) :
  (top_count <= total)%N -> (0 < total)%N -> (total < 5)%N ->
  (top_count = total /\ penalize total (truediv top_count total) = f1_0) \/
  ltb (penalize total (truediv top_count total)) CONF_THRESHOLD = true.
Proof.
  intros Hle Hpos Hsmall.
  assert (total = 1 \/ total = 2 \/ total = 3 \/ total = 4)%N
    as [-> | [-> | [-> | ->]]] by lia;
  [ assert (top_count = 0 \/ top_count = 1)%N as [-> | ->] by lia
  | assert (top_count = 0 \/ top_count = 1 \/ top_count = 2)%N
      as [-> | [-> | ->]] by lia
  | assert (top_count = 0 \/ top_count = 1 \/ top_count = 2 \/ top_count = 3)%N
      as [-> | [-> | [-> | ->]]] by lia
  | assert (top_count = 0 \/ top_count = 1 \/ top_count = 2 \/ top_count = 3
            \/ top_count = 4)%N as [-> | [-> | [-> | [-> | ->]]]] by lia ];
  first [ right; vm_compute; reflexivity
        | left; split; [reflexivity | vm_compute; reflexivity] ].
Qed.

(** X8. An entry built from fewer than five rows has a confidence that
    is either exactly 1.0, when all its rows carry the top label, or below
    the 0.65 threshold: a mixed small sample is never accepted as a
    high-confidence mapping. *)
Theorem small_sample_confidence (ctr : counter) (e : entry) :
  global_entry ctr = Some e \/ country_entry ctr = Some e ->
  (total ctr < MIN_COUNT_FOR_CONFIDENCE)%N ->
  (In (entry_gender e, total ctr) ctr /\ entry_conf e = f1_0)
  \/ ltb (entry_conf e) CONF_THRESHOLD = true.
Proof.
  intros H S. rewrite global_entry_country_entry in H.
  assert (country_entry ctr = Some e) as H' by tauto. clear H.
  destruct (country_entry_spec ctr e H') as (c & I & L & P & -> & _).
  unfold MIN_COUNT_FOR_CONFIDENCE in S.
  destruct (small_confidence c (total ctr) L P S) as [[E C]|C]; [left | now right].
  split; [now rewrite <- E | assumption].
Qed.

Lemma small_sample_confidence_witness :
  (In (F, 3%N) [(M, 1%N); (F, 2%N)] /\ mul (truediv 2 3) f0_7 = f1_0)
  \/ ltb (mul (truediv 2 3) f0_7) CONF_THRESHOLD = true.
Proof.
  apply (small_sample_confidence [(M, 1%N); (F, 2%N)]
           (F, mul (truediv 2 3) f0_7, 3%N)).
  - left. vm_compute. reflexivity.
  - reflexivity.
Defined.

(* ------------------------------------------------------------------ *)
(** ** The decision cascade, case by case *)

Ltac break_match :=
  match goal with
  | |- context [match ?x with _ => _ end] => destruct x eqn:?
  end.

Lemma decide_empty (E : env) (country : str) : decide E country [] = locals_init.
Proof.
  unfold decide, step_mapping, step_fallback, step_final.
  cbn [nonempty]. now rewrite !andb_false_r.
Qed.

(** X9. A row whose name gives no token (empty, only an initial, only
    characters that are dropped) is written with
    ('Unknown', '0.000', 'unknown'), whatever the mappings and the
    classifier. *)
Theorem empty_token_default (E : env) (r : row) :
  is_data_row r = true ->
  get_first_name (hd [] r) = [] ->
  process_row E r = Some (r ++ [lit "Unknown"; lit "0.000"; lit "unknown"]).
Proof.
  intros D T. rewrite (process_row_data E r D), T, decide_empty. reflexivity.
Qed.

Lemma empty_token_default_witness :
  process_row (build_env alex_reference None) [lit "K"; lit "US"] =
  Some ([lit "K"; lit "US"] ++ [lit "Unknown"; lit "0.000"; lit "unknown"]).
Proof.
  apply (empty_token_default (build_env alex_reference None) [lit "K"; lit "US"]).
  - reflexivity.
  - vm_compute. reflexivity.
Defined.

(** Nothing was chosen yet: the source 'unknown' comes with the initial
    label and confidence. *)
Definition untouched (l : locals) : Prop :=
  chosen_source l = src_unknown ->
  chosen_gender l = Unknown /\ chosen_conf l = f0_0.

Lemma untouched_step_mapping E country fname l :
  untouched l -> untouched (step_mapping E country fname l).
Proof.
  intros U. unfold step_mapping. repeat break_match; subst;
    try exact U; intros H; try discriminate H; exact (U H).
Qed.

Lemma untouched_step_fallback E fname l :
  untouched l -> untouched (step_fallback E fname l).
Proof.
  intros U. unfold step_fallback. repeat break_match; subst;
    try exact U; intros H; try discriminate H; exact (U H).
Qed.

Lemma untouched_step_final E fname l :
  untouched l -> untouched (step_final E fname l).
Proof.
  intros U. unfold step_final. repeat break_match; subst;
    try exact U; intros H; try discriminate H; exact (U H).
Qed.

Lemma untouched_decide E country fname : untouched (decide E country fname).
Proof.
  unfold decide.
  apply untouched_step_final, untouched_step_fallback, untouched_step_mapping.
  intros _. split; reflexivity.
Qed.

(** X10. The source tag tells whether a decision was taken: the source
    'unknown' only comes with ('Unknown', 0.0), and a name token that has a
    global entry never gets the source 'unknown'. *)
Theorem source_unknown_is_default (E : env) (country fname : str) :
  (chosen_source (decide E country fname) = src_unknown ->
     decision_fields (decide E country fname) =
       [lit "Unknown"; lit "0.000"; lit "unknown"]) /\
  (fname <> [] -> Dict.get fname (mapping E) <> None ->
     chosen_source (decide E country fname) <> src_unknown).
Proof.
  split.
  - intros H. destruct (untouched_decide E country fname H) as [G C].
    unfold decision_fields. rewrite H, G, C. reflexivity.
  - intros NE IN. apply nonempty_true in NE. unfold decide.
    set (l := step_fallback E fname (step_mapping E country fname locals_init)).
    assert (untouched l) as U.
    { apply untouched_step_fallback, untouched_step_mapping.
      intros _. split; reflexivity. }
    unfold step_final. rewrite NE, andb_true_r.
    destruct (gender_eqb (chosen_gender l) Unknown) eqn:G.
    + destruct (Dict.get fname (mapping E)) as [[[g c] t]|]; [discriminate | congruence].
    + intros H. destruct (U H) as [G' _]. rewrite G' in G. discriminate.
Qed.

Lemma leb_false_ltb_thr_false (conf : float) :
  leb CONF_THRESHOLD conf = true -> ltb conf CONF_THRESHOLD = false.
Proof.
  intros H. destruct (ltb conf CONF_THRESHOLD) eqn:L; [|reflexivity].
  exfalso. exact (leb_ltb_false _ _ H L).
Qed.

(** X11. Without the classifier and without a country entry, a name
    token with a global entry is decided by that entry with source
    'mapped', whatever its confidence; a token without a global entry
    stays ('Unknown', 0.0, 'unknown'). *)
Theorem no_classifier_decision (E : env) (country fname : str) :
  fname <> [] ->
  gg E = None ->
  Dict.get (country, fname) (mapping_country E) = None ->
  match Dict.get fname (mapping E) with
  | Some (g, conf, _) =>
      chosen_gender (decide E country fname) = g /\
      chosen_conf (decide E country fname) = conf /\
      chosen_source (decide E country fname) = src_mapped
  | None =>
      chosen_gender (decide E country fname) = Unknown /\
      chosen_conf (decide E country fname) = f0_0 /\
      chosen_source (decide E country fname) = src_unknown
  end.
Proof.
  intros NE GG NC. apply nonempty_true in NE.
  unfold decide, step_mapping, step_fallback, step_final, GG_AVAILABLE.
  rewrite NE, NC, GG, !andb_false_r.
  destruct (Dict.get fname (mapping E)) as [[[g conf] t]|] eqn:G.
  - destruct (leb CONF_THRESHOLD conf);
      cbn [chosen_gender choose remember locals_init];
      destruct g; cbn [gender_eqb andb chosen_gender chosen_conf chosen_source choose];
      rewrite ?NE; cbn [andb chosen_gender chosen_conf chosen_source choose gender_eqb];
      repeat split.
  - cbn [chosen_gender locals_init gender_eqb andb]. rewrite ?NE.
    cbn [chosen_gender chosen_conf chosen_source locals_init]. repeat split.
Qed.

Lemma no_classifier_decision_witness :
  chosen_gender (decide (build_env alex_reference None) (lit "US") (lit "alex")) = F /\
  chosen_conf (decide (build_env alex_reference None) (lit "US") (lit "alex"))
    = mul (truediv 2 3) f0_7 /\
  chosen_source (decide (build_env alex_reference None) (lit "US") (lit "alex"))
    = src_mapped.
Proof.
  apply (no_classifier_decision (build_env alex_reference None) (lit "US") (lit "alex")).
  - discriminate.
  - reflexivity.
  - reflexivity.
Defined.

(** X12. A country entry whose confidence is at least the threshold and
    whose label is not 'Unknown' is the decision, with source
    'country-mapped', whatever the global mapping and the classifier
    say. *)
Theorem country_entry_accepted (E : env) (country fname : str)
    (g : gender) (conf : float) (t : N) :
  fname <> [] -> g <> Unknown ->
  Dict.get (country, fname) (mapping_country E) = Some (g, conf, t) ->
  leb CONF_THRESHOLD conf = true ->
  decision_fields (decide E country fname) =
    [gender_str g; format3 conf; lit "country-mapped"].
Proof.
  intros NE NU G L.
  rewrite (decide_country_mapped E country fname g conf t NE NU G L).
  reflexivity.
Qed.

Lemma country_entry_accepted_witness :
  decision_fields
    (decide (build_env (split_reference "M" "F") (always female))
       (lit "US") (lit "alex")) =
  [gender_str M; format3 f0_7; lit "country-mapped"].
Proof.
  apply (country_entry_accepted (build_env (split_reference "M" "F") (always female))
           (lit "US") (lit "alex") M f0_7 10%N).
  - discriminate.
  - discriminate.
  - vm_compute. reflexivity.
  - reflexivity.
Defined.

(** X13. When the country entry is missing or below the threshold, a
    global entry whose confidence is at least the threshold and whose
    label is not 'Unknown' is the decision, with source 'mapped': the
    classifier, available or not, plays no part. *)
Theorem global_entry_accepted (E : env) (country fname : str)
    (g : gender) (conf : float) (t : N) :
  fname <> [] -> g <> Unknown ->
  match Dict.get (country, fname) (mapping_country E) with
  | Some (_, c0, _) => leb CONF_THRESHOLD c0 = false
  | None => True
  end ->
  Dict.get fname (mapping E) = Some (g, conf, t) ->
  leb CONF_THRESHOLD conf = true ->
  decision_fields (decide E country fname) =
    [gender_str g; format3 conf; lit "mapped"].
Proof.
  intros NE NU LOW G L. pose proof (leb_false_ltb_thr_false conf L) as L'.
  apply nonempty_true in NE.
  assert (forall l, chosen_gender l = g -> chosen_conf l = conf ->
            chosen_source l = src_mapped ->
            decision_fields (step_final E fname l) =
              [gender_str g; format3 conf; lit "mapped"]) as Fin.
  { intros l Hg Hc Hs. rewrite step_final_decided by (left; congruence).
    unfold decision_fields. now rewrite Hg, Hc, Hs. }
  unfold decide, step_mapping. rewrite NE.
  destruct (Dict.get (country, fname) (mapping_country E)) as [[[g0 c0] t0]|].
  - rewrite LOW. unfold step_fallback.
    cbn [chosen_gender remember locals_init gender_eqb]. rewrite NE, G, L'.
    cbn [andb]. apply Fin; reflexivity.
  - rewrite G, L. rewrite step_fallback_decided by exact NU.
    apply Fin; reflexivity.
Qed.

Lemma global_entry_accepted_witness :
  decision_fields
    (decide (build_env (us_6_4_reference (repeat (ref_row "Alex" "F" "DE") 50))
               (always male))
       (lit "US") (lit "alex")) =
  [gender_str F; format3 f0_9; lit "mapped"].
Proof.
  apply (global_entry_accepted
           (build_env (us_6_4_reference (repeat (ref_row "Alex" "F" "DE") 50))
              (always male))
           (lit "US") (lit "alex") F f0_9 60%N).
  - discriminate.
  - discriminate.
  - vm_compute. reflexivity.
  - vm_compute. reflexivity.
  - reflexivity.
Defined.

(* ------------------------------------------------------------------ *)
(** ** The audit file *)

Lemma top_two_bounds (l : list N) :
  (snd (top_two l) <= fst (top_two l))%N /\
  (fst (top_two l) + snd (top_two l) <= fold_right N.add 0 l)%N.
Proof.
  induction l as [|x l IH]; cbn [top_two fold_right]; [cbn; lia|].
  destruct (top_two l) as [a b]. cbn [fst snd] in IH.
  destruct (x <? a)%N eqn:C; cbn [fst snd].
  - apply N.ltb_lt in C. lia.
  - apply N.ltb_ge in C. lia.
Qed.

Lemma fst_top_two_max (l : list N) : fst (top_two l) = fold_right N.max 0%N l.
Proof.
  induction l as [|x l IH]; cbn [top_two fold_right]; [reflexivity|].
  destruct (top_two l) as [a b]. cbn [fst] in IH. rewrite <- IH.
  destruct (x <? a)%N eqn:C; cbn [fst].
  - apply N.ltb_lt in C. lia.
  - apply N.ltb_ge in C. lia.
Qed.

Lemma first_max_count (items : list (gender * N)) : forall best,
  snd (first_max best items) =
  N.max (snd best) (fold_right N.max 0%N (List.map snd items)).
Proof.
  induction items as [|x items IH]; intros best; cbn [first_max List.map fold_right].
  - lia.
  - destruct (snd best <? snd x)%N eqn:C; rewrite IH.
    + apply N.ltb_lt in C. lia.
    + apply N.ltb_ge in C. lia.
Qed.

Lemma most_common_1_count (ctr : counter) g c rest :
  most_common_1 ctr = (g, c) :: rest -> c = fst (top_two (Dict.values ctr)).
Proof.
  destruct ctr as [|x items]; cbn [most_common_1]; [discriminate|].
  intros [= H _]. rewrite fst_top_two_max.
  pose proof (first_max_count items x) as M. rewrite H in M. cbn [snd] in M.
  unfold Dict.values. cbn [List.map fold_right]. lia.
Qed.

Lemma audit_one_fields fname (ctr : counter) a :
  audit_one fname ctr = Some a ->
  total ctr <> 0%N /\
  au_first_name a = fname /\ au_total_count a = total ctr /\
  au_top_count a = fst (top_two (Dict.values ctr)) /\
  au_second_count a = snd (top_two (Dict.values ctr)) /\
  au_confidence a = truediv (au_top_count a) (au_total_count a).
Proof.
  unfold audit_one. destruct (total ctr =? 0)%N eqn:T; [discriminate|].
  apply N.eqb_neq in T. pose proof (heads_most_common ctr) as Hd.
  destruct (most_common ctr) as [|[g c] tl]; [discriminate|].
  destruct (audit_flag _ _ _ _ _); [|discriminate].
  intros [= <-]. cbn [au_first_name au_total_count au_top_count
                       au_second_count au_confidence].
  rewrite <- Hd. cbn [heads fst snd]. repeat split; assumption.
Qed.

Lemma audit_names_NoDup (cg : counts) :
  NoDup (Dict.keys cg) -> NoDup (List.map au_first_name (audit cg)).
Proof.
  induction cg as [|[f c] cg IH]; cbn [audit Dict.keys List.map]; [constructor|].
  intros W. inversion W as [|? ? NI W']; subst.
  destruct (audit_one f c) as [a|] eqn:A; [|now apply IH].
  cbn [List.map]. constructor; [|now apply IH].
  rewrite (audit_one_name f c a A). intros I. apply NI.
  apply in_map_iff in I. destruct I as (a' & Na & Ia).
  apply audit_In in Ia. destruct Ia as (ctr & Ic & _).
  rewrite Na in Ic. unfold Dict.keys. apply in_map_iff. exists (f, ctr). auto.
Qed.

(** X14. The audit lists a name at most once, and every line is
    consistent with the counts of its name: the total is the counter's
    total, the second count is at most the top count, the two together
    are at most the total, and the confidence is top/total, without the
    low-sample penalty, between 0 and 1. *)
Theorem audit_entries_consistent (reference : list row) :
  let cg := counts_global (aggregate reference) in
  NoDup (List.map au_first_name (audit cg)) /\
  forall a, In a (audit cg) ->
    (exists ctr, Dict.get (au_first_name a) cg = Some ctr /\
                 au_total_count a = total ctr) /\
    (au_second_count a <= au_top_count a)%N /\
    (au_top_count a + au_second_count a <= au_total_count a)%N /\
    au_confidence a = truediv (au_top_count a) (au_total_count a) /\
    in_unit (au_confidence a).
Proof.
  cbv zeta. destruct (agg_inv_aggregate reference) as [W _].
  split; [apply audit_names_NoDup; exact W|].
  intros a Ia. apply audit_In in Ia. destruct Ia as (ctr & Ic & A).
  destruct (audit_one_fields _ ctr a A) as (T & _ & Et & Etop & Esec & Ec).
  pose proof (top_two_bounds (Dict.values ctr)) as [B1 B2].
  change (fold_right N.add 0%N (Dict.values ctr)) with (total ctr) in B2.
  rewrite <- Etop, <- Esec, <- Et in *.
  split; [exists ctr; split; [apply In_get; assumption | exact Et]|].
  split; [assumption|]. split; [assumption|]. split; [assumption|].
  rewrite Ec. apply truediv_in_unit; lia.
Qed.

(** [x < a] and [a < b] give [x < b], for two positive floats of the
    same exponent. *)
Lemma ltb_finite_mono (x : float) (a b : positive) (e0 : Z) :
  (a < b)%positive ->
  ltb x (S754_finite false a e0) = true -> ltb x (S754_finite false b e0) = true.
Proof.
  intros AB. unfold ltb, SFltb.
  destruct x as [[|]|[|]| |[|] m e]; cbn [SFcompare]; try tauto.
  destruct (e ?= e0)%Z; try tauto.
  change (Pos.compare_cont Eq m a) with (Pos.compare m a).
  change (Pos.compare_cont Eq m b) with (Pos.compare m b).
  destruct (Pos.compare_spec m a) as [E|L|G]; try discriminate.
  intros _. assert (m < b)%positive as L' by lia.
  apply Pos.compare_lt_iff in L'. now rewrite L'.
Qed.

Lemma below_threshold_below_0_7 (x : float) :
  ltb x CONF_THRESHOLD = true -> ltb x f0_7 = true.
Proof.
  unfold CONF_THRESHOLD, f0_65, f0_7. apply ltb_finite_mono. reflexivity.
Qed.

(** X15. Every name that the decision loop treats as low-confidence is
    in the audit: if the global entry of a name has a confidence below
    the 0.65 threshold, the audit has a line for that name. *)
Theorem low_confidence_is_audited (reference : list row) (gg : detector)
    (f : str) (e : entry) :
  Dict.get f (mapping (build_env reference gg)) = Some e ->
  ltb (entry_conf e) CONF_THRESHOLD = true ->
  exists a, In a (audit (counts_global (aggregate reference))) /\
            au_first_name a = f.
Proof.
  cbn [build_env mapping]. intros G LOW.
  destruct (agg_inv_aggregate reference) as [W _].
  rewrite build_mapping_get in G by assumption.
  destruct (Dict.get f (counts_global (aggregate reference))) as [ctr|] eqn:Gc;
    [|discriminate].
  assert (total ctr <> 0%N) as NZ.
  { unfold global_entry in G. destruct (total ctr =? 0)%N eqn:T; [discriminate|].
    now apply N.eqb_neq. }
  assert (exists a, audit_one f ctr = Some a) as (a & A).
  { apply audit_one_flag; [assumption|]. apply audit_flag_true.
    destruct (N.ltb_spec (total ctr) 50) as [S|S]; [now left|].
    right; left. apply below_threshold_below_0_7.
    rewrite global_entry_country_entry in G. unfold country_entry in G.
    replace (total ctr =? 0)%N with false in G by (symmetry; now apply N.eqb_neq).
    destruct (most_common_1 ctr) as [|[g c] rest] eqn:Em; [discriminate|].
    injection G as <-. rewrite <- (most_common_1_count ctr g c rest Em).
    unfold entry_conf in LOW. cbn [fst snd] in LOW. unfold penalize in LOW.
    replace (total ctr <? MIN_COUNT_FOR_CONFIDENCE)%N with false in LOW
      by (symmetry; apply N.ltb_ge; unfold MIN_COUNT_FOR_CONFIDENCE; lia).
    exact LOW. }
  exists a. split; [|exact (audit_one_name f ctr a A)].
  apply audit_In. rewrite (audit_one_name f ctr a A).
  exists ctr. split; [now apply get_In | assumption].
Qed.

Lemma low_confidence_is_audited_witness :
  exists a, In a (audit (counts_global (aggregate alex_reference))) /\
            au_first_name a = lit "alex".
Proof.
  apply (low_confidence_is_audited alex_reference None (lit "alex")
           (F, mul (truediv 2 3) f0_7, 3%N)).
  - vm_compute. reflexivity.
  - vm_compute. reflexivity.
Defined.

(* ------------------------------------------------------------------ *)
(** ** The country mapping needs a header *)

Lemma ref_step_no_country st r :
  country_idx st = None ->
  country_idx (ref_step st r) = None /\
  counts_by_country (ref_step st r) = counts_by_country st.
Proof.
  intros CI. unfold ref_step. destruct (negb (nonempty r)); [auto|].
  destruct (negb (nonempty _)); [auto|].
  cbn [country_idx counts_by_country]. rewrite CI. auto.
Qed.

Lemma no_country_fold rows : forall st,
  country_idx st = None -> counts_by_country st = [] ->
  counts_by_country (fold_left ref_step rows st) = [].
Proof.
  induction rows as [|r rows IH]; intros st CI CC; cbn [fold_left]; [assumption|].
  destruct (ref_step_no_country st r CI) as [CI' CC'].
  apply IH; [assumption | congruence].
Qed.

Definition never_country_mapped (l : locals) : Prop :=
  chosen_source l <> src_country_mapped.

(** X16. Unless the first row of the reference file has both a [name]
    cell and a [country] cell, no country is recorded: the country mapping
    is empty and no decision has the source 'country-mapped'. *)
Theorem no_country_mapping_without_header (first_row : row) (rest : list row)
    (gg : detector) :
  let lower := List.map (fun c => lower (strip c)) first_row in
  Str.mem (lit "name") lower && Str.mem (lit "country") lower = false ->
  let E := build_env (first_row :: rest) gg in
  mapping_country E = [] /\
  forall country fname,
    chosen_source (decide E country fname) <> src_country_mapped.
Proof.
  cbv zeta. intros H.
  assert (mapping_country (build_env (first_row :: rest) gg) = []) as MC.
  { cbn [build_env mapping_country aggregate].
    rewrite no_country_fold; [reflexivity| |].
    - unfold read_first_row. destruct (negb (nonempty first_row)); [reflexivity|].
      destruct (Str.mem (lit "name") _); cbn [andb] in H.
      + rewrite H. reflexivity.
      + destruct (nonempty _); reflexivity.
    - unfold read_first_row. destruct (negb (nonempty first_row)); [reflexivity|].
      destruct (Str.mem (lit "name") _); [reflexivity|].
      destruct (nonempty _); reflexivity. }
  split; [exact MC|]. intros country fname.
  set (E := build_env (first_row :: rest) gg) in *.
  assert (never_country_mapped (step_mapping E country fname locals_init)) as S1.
  { unfold step_mapping. rewrite MC. cbn [Dict.get].
    unfold never_country_mapped. repeat break_match; discriminate. }
  assert (forall l, never_country_mapped l ->
            never_country_mapped (step_fallback E fname l)) as S2.
  { intros l N. unfold step_fallback, never_country_mapped in *.
    repeat break_match; try exact N; discriminate. }
  assert (forall l, never_country_mapped l ->
            never_country_mapped (step_final E fname l)) as S3.
  { intros l N. unfold step_final, never_country_mapped in *.
    repeat break_match; try exact N; discriminate. }
  unfold decide. apply S3, S2, S1.
Qed.

Lemma no_country_mapping_without_header_witness :
  let E := build_env alex_reference None in
  mapping_country E = [] /\
  forall country fname,
    chosen_source (decide E country fname) <> src_country_mapped.
Proof.
  apply (no_country_mapping_without_header [lit "Alex"; lit "M"]
           [[lit "Alex"; lit "F"]; [lit "Alex"; lit "F"]] None).
  vm_compute. reflexivity.
Defined.

(* ------------------------------------------------------------------ *)
(** ** Column roles from the header *)

Lemma str_eqb_sym (a b : str) : Str.eqb a b = Str.eqb b a.
Proof.
  destruct (Str.eqb a b) eqn:E1, (Str.eqb b a) eqn:E2; try reflexivity.
  - apply str_eqb_spec in E1. subst. pose proof (proj2 (str_eqb_spec b b) eq_refl).
    congruence.
  - apply str_eqb_spec in E2. subst. pose proof (proj2 (str_eqb_spec a a) eq_refl).
    congruence.
Qed.






(* ------------------------------------------------------------------ *)
(** ** The order of the names *)

(** A list of names with one more name, put last when it is new. *)
Definition add_new (ks : list str) (f : str) : list str :=
  if Str.mem f ks then ks else ks ++ [f].

Lemma dict_mem_keys {V : Type} (f : str) (d : Dict.dict str V) :
  Dict.mem f d = Str.mem f (Dict.keys d).
Proof.
  unfold Dict.mem, Str.mem.
  induction d as [|[k v] d IH]; cbn [Dict.get Dict.keys List.map existsb fst]; [reflexivity|].
  change (eqb_key k f) with (Str.eqb k f). rewrite (str_eqb_sym f k).
  destruct (Str.eqb k f); [reflexivity | exact IH].
Qed.

Lemma keys_bump fname g (cg : counts) :
  Dict.keys (bump fname g cg) = add_new (Dict.keys cg) fname.
Proof.
  unfold bump, add_new. rewrite keys_set, dict_mem_keys. reflexivity.
Qed.

(** The name token that a reference row contributes, given the name
    column. *)
Definition row_token (ni : nat) (r : row) : str := get_first_name (field ni r).

Lemma keys_ref_step st r :
  Dict.keys (counts_global (ref_step st r)) =
  if nonempty (row_token (name_idx st) r)
  then add_new (Dict.keys (counts_global st)) (row_token (name_idx st) r)
  else Dict.keys (counts_global st).
Proof.
  unfold ref_step, row_token.
  destruct r as [|x r]; cbn [nonempty negb].
  - unfold field. destruct (name_idx st); reflexivity.
  - destruct (nonempty (get_first_name (field (name_idx st) (x :: r))));
      cbn [negb counts_global]; [apply keys_bump | reflexivity].
Qed.

Lemma keys_fold rows : forall st,
  Dict.keys (counts_global (fold_left ref_step rows st)) =
  fold_left add_new
    (filter nonempty (List.map (row_token (name_idx st)) rows))
    (Dict.keys (counts_global st)).
Proof.
  induction rows as [|r rows IH]; intros st; cbn [fold_left List.map filter];
    [reflexivity|].
  rewrite IH, keys_ref_step. destruct (ref_step_indices st r) as [-> _].
  destruct (nonempty (row_token (name_idx st) r)); reflexivity.
Qed.

(** X18. The names are kept in the order in which the reference file
    first shows them: the keys of the global counts are the non-empty
    name tokens of the counted rows, each at its first occurrence. The
    audit lines follow that order. *)
Theorem names_in_first_seen_order (first_row : row) (rest : list row) :
  let st0 := read_first_row first_row ref_init in
  let cg := counts_global (aggregate (first_row :: rest)) in
  let counted :=
    if Str.mem (lit "name") (List.map (fun c => lower (strip c)) first_row)
    then rest else first_row :: rest in
  Dict.keys cg =
    fold_left add_new
      (filter nonempty (List.map (row_token (name_idx st0)) counted)) [] /\
  List.map au_first_name (audit cg) =
    filter (fun f => match Dict.get f cg with
                     | Some ctr =>
                         match audit_one f ctr with Some _ => true | None => false end
                     | None => false
                     end) (Dict.keys cg).
Proof.
  cbv zeta. split.
  - cbn [aggregate]. rewrite keys_fold. unfold read_first_row.
    destruct first_row as [|x r0]; cbn [nonempty negb].
    + cbn [List.map Str.mem existsb filter]. unfold row_token at 2. unfold field.
      cbn [ref_init name_idx counts_global nth Dict.keys List.map fold_left].
      reflexivity.
    + set (r := x :: r0).
      destruct (Str.mem (lit "name") _).
      * reflexivity.
      * unfold row_token. cbn [ref_init name_idx gender_idx counts_global].
        destruct (nonempty (get_first_name (field 0 r))) eqn:NE;
          cbn [name_idx counts_global List.map filter ref_init];
          rewrite ?NE; cbn [fold_left]; [rewrite keys_bump|]; reflexivity.
  - destruct (agg_inv_aggregate (first_row :: rest)) as [W _].
    revert W. generalize (counts_global (aggregate (first_row :: rest))).
    intros cg W.
    assert (forall l, (forall f ctr, In (f, ctr) l -> Dict.get f cg = Some ctr) ->
              List.map au_first_name (audit l) =
              filter (fun f => match Dict.get f cg with
                               | Some ctr =>
                                   match audit_one f ctr with
                                   | Some _ => true
                                   | None => false
                                   end
                               | None => false
                               end) (Dict.keys l)) as Gen.
    { induction l as [|[f c] l IH]; intros Hl; cbn [audit Dict.keys List.map filter fst];
        [reflexivity|].
      rewrite (Hl f c (or_introl eq_refl)).
      assert (forall f' ctr, In (f', ctr) l -> Dict.get f' cg = Some ctr) as Hl'
        by (intros f' ctr I; apply Hl; now right).
      destruct (audit_one f c) as [a|] eqn:A.
      - cbn [List.map]. rewrite (audit_one_name f c a A). f_equal. now apply IH.
      - now apply IH. }
    apply Gen. intros f ctr I. now apply In_get.
Qed.

(* ------------------------------------------------------------------ *)
(** ** A name that the reference does not know *)

(** X19. A name token without a country entry and without a global entry
    is decided by the classifier alone, when it is available: its answer
    is written with source 'gender-guesser', also the answer
    ('Unknown', 0.5) for an androgynous name; only the answer 'unknown'
    leaves ('Unknown', 0.0, 'unknown'). *)
Theorem classifier_alone (E : env) (country fname : str)
    (get_gender : str -> gg_category) :
  fname <> [] ->
  gg E = Some get_gender ->
  Dict.get (country, fname) (mapping_country E) = None ->
  Dict.get fname (mapping E) = None ->
  decision_fields (decide E country fname) =
  match get_gender fname with
  | male => [lit "M"; lit "1.000"; lit "gender-guesser"]
  | mostly_male => [lit "M"; lit "0.850"; lit "gender-guesser"]
  | female => [lit "F"; lit "1.000"; lit "gender-guesser"]
  | mostly_female => [lit "F"; lit "0.850"; lit "gender-guesser"]
  | andy => [lit "Unknown"; lit "0.500"; lit "gender-guesser"]
  | unknown => [lit "Unknown"; lit "0.000"; lit "unknown"]
  end.
Proof.
  intros NE GG NC NG. pose proof NE as NE'. apply nonempty_true in NE'.
  unfold decide. rewrite step_final_decided by (right; exact NG).
  unfold step_mapping. rewrite NE', NC, NG.
  unfold step_fallback. cbn [chosen_gender locals_init gender_eqb].
  rewrite NE', NG, GG. cbn [andb GG_AVAILABLE].
  unfold gg_guess. rewrite NE'. cbn [negb].
  destruct (get_gender fname); vm_compute; reflexivity.
Qed.

Lemma classifier_alone_witness :
  decision_fields
    (decide (build_env alex_reference (always andy)) (lit "US") (lit "sam")) =
  [lit "Unknown"; lit "0.500"; lit "gender-guesser"].
Proof.
  apply (classifier_alone (build_env alex_reference (always andy))
           (lit "US") (lit "sam") (fun _ => andy)).
  - discriminate.
  - reflexivity.
  - reflexivity.
  - vm_compute. reflexivity.
Defined.

(* ------------------------------------------------------------------ *)
(** ** The first input row *)

(** X20. The first row of the input file is always taken as the header:
    when it is not empty it is written with the three column names
    appended and is never classified, even if it holds a person; the
    output then has one row for the header and one for each later row
    that is not skipped. *)
Theorem first_input_row_is_header (E : env) (header : row) (rest : list row) :
  header <> [] ->
  hd [] (decision_phase E (header :: rest)) =
    header ++ [lit "Gender"; lit "GenderConfidence"; lit "GenderSource"] /\
  List.length (decision_phase E (header :: rest)) =
    1 + List.length (filter is_data_row rest).
Proof.
  intros NE. apply nonempty_true in NE.
  cbn [decision_phase hd List.length]. rewrite NE. split; [reflexivity|].
  f_equal. induction rest as [|r rest IH]; cbn [process_rows filter]; [reflexivity|].
  destruct (is_data_row r) eqn:D.
  - rewrite (process_row_data E r D). cbn [List.length]. now rewrite IH.
  - rewrite (process_row_skip E r D). exact IH.
Qed.

Lemma first_input_row_is_header_witness :
  hd [] (decision_phase (build_env alex_reference None)
           [[lit "Alex Smith"; lit "US"]; [lit "Alex Jones"; lit "US"]]) =
    [lit "Alex Smith"; lit "US"]
      ++ [lit "Gender"; lit "GenderConfidence"; lit "GenderSource"] /\
  List.length (decision_phase (build_env alex_reference None)
                 [[lit "Alex Smith"; lit "US"]; [lit "Alex Jones"; lit "US"]]) =
    1 + List.length (filter is_data_row [[lit "Alex Jones"; lit "US"]]).
Proof.
  apply (first_input_row_is_header (build_env alex_reference None)
           [lit "Alex Smith"; lit "US"] [[lit "Alex Jones"; lit "US"]]).
  discriminate.
Defined.
